(** * JWT auxiliary-data extraction (internal/auxdata/jwt.go)

    A shallow embedding of the JWT helper of the auxdata package: the
    keyset registry, the verification cache protocol and the [extract]
    orchestration, together with the properties stated about them.

    Go's [(value, error)] results are kept as pairs, [nil] is [None], a
    method with a pointer receiver runs in a state monad over the receiver,
    and every call that leaves the package (cache, parser, key resolution,
    logging, metrics, tracing) is recorded in the list of events of the
    call. *)

From Stdlib Require Import ZArith String Ascii List Lia.
From stdpp Require Import base option gmap strings list fin_maps.
Import ListNotations.

Local Open Scope string_scope.
Local Open Scope Z_scope.

(** ** Strings (package strings, slicing) *)

Module GoStrings.

(** [strings.LastIndexByte s c]: index of the last byte of [s] equal to
    [c], or [-1]. *)
Fixpoint LastIndexByte (s : string) (c : ascii) : Z :=
  match s with
  | EmptyString => -1
  | String a s' =>
      let r := LastIndexByte s' c in
      if 0 <=? r then r + 1
      else if Ascii.eqb a c then 0 else -1
  end.

Fixpoint drop_bytes (n : nat) (s : string) : string :=
  match n, s with
  | O, _ => s
  | S n', String _ s' => drop_bytes n' s'
  | S _, EmptyString => EmptyString
  end.

(** The slice expression [s[i:]] for an index within bounds. *)
Definition slice_from (s : string) (i : Z) : string :=
  drop_bytes (Z.to_nat i) s.

(** [strings.Split s sep] for a one-byte separator. *)
Fixpoint Split (s : string) (sep : ascii) : list string :=
  match s with
  | EmptyString => [EmptyString]
  | String a s' =>
      if Ascii.eqb a sep then EmptyString :: Split s' sep
      else match Split s' sep with
           | seg :: rest => String a seg :: rest
           | [] => [String a EmptyString]
           end
  end.

End GoStrings.
Import GoStrings.

(** The signature segment of a token as the glossary defines it: the
    final dot-separated component of the token string. *)
Definition signatureSegment (token : string) : string :=
  List.last (Split token ".") EmptyString.

(** ** Time (package time) *)

Definition Time := Z.        (* an instant, in nanoseconds since the Unix epoch *)
Definition Duration := Z.    (* int64 nanoseconds *)

Definition minDuration : Duration := - 2 ^ 63.
Definition maxDuration : Duration := 2 ^ 63 - 1.
Definition Second : Duration := 1000000000.
Definition Minute : Duration := 60 * Second.

(** [time.Time{}], January 1 of year 1, 00:00:00 UTC. *)
Definition zeroTime : Time := -62135596800 * Second.

(** [t.Sub(u)]: the difference, saturated to the range of [Duration]. *)
Definition time_Sub (t u : Time) : Duration :=
  if t - u <? minDuration then minDuration
  else if maxDuration <? t - u then maxDuration
  else t - u.

(** ** Errors *)

Inductive error : Type :=
| errors_New (msg : string)
| fmt_Errorf_s (format : string) (arg : string)
| fmt_Errorf_w (format : string) (cause : error)
| fmt_Errorf_sw (format : string) (arg : string) (cause : error).

Definition errNilLocalKeySet : error :=
  errors_New "[ERR-255] nil local keyset".
Definition errNoKeySetToVerify : error :=
  errors_New "[ERR-256] cannot determine keyset to use for validating the JWT".

(** ** Dynamic values *)

(** The values of type [any] that a claim pair can carry. *)
Inductive any : Type :=
| AnyNil
| AnyBool (b : bool)
| AnyInt (n : Z)
| AnyString (s : string)
| AnyOther (typeName : string).

(** The type assertion [v.(string)] in its two-result form. *)
Definition assert_string (v : any) : string * bool :=
  match v with
  | AnyString s => (s, true)
  | _ => (EmptyString, false)
  end.

(** ** Constants of the package *)

Definition cacheKind : string := "jwt".
Definition defaultCacheExpiry : Duration := 10 * Minute.
Definition defaultCacheSize : Z := 256.
Definition cacheEntry : unit := tt.

(** ** Configuration and request types

    The fields the helper reads of the configuration structs of the
    package and of the [AuxData_JWT] message of the request. *)

Record RemoteSource := { URL : string; RefreshInterval : Duration }.
Record LocalSource := { Data : string; File : string; PEM : bool }.
Record KeySetConf :=
  { ID : string; Remote : option RemoteSource; Local : option LocalSource }.
Record JWTConf :=
  { DisableVerification : bool; KeySets : list KeySetConf; CacheSize : Z }.

Record AuxData_JWT := { Token : string; KeySetId : string }.

(** ** Tokens and parse options (package jwt) *)

(** What the package uses of a parsed [jwt.Token]: its expiry claim and the
    key-value pairs its iterator yields.  A pair's key has the dynamic type
    the loop of [doExtract] asserts on; the tokens [jwt.ParseString]
    returns name every claim with a string. *)
Record jwtToken := { tokExp : option Time; tokPairs : list (any * any) }.

(** [token.Expiration()]: the zero time when the claim is absent. *)
Definition Expiration (t : jwtToken) : Time :=
  match tokExp t with Some e => e | None => zeroTime end.

Inductive ParseOption (S : Type) : Type :=
| WithVerify (b : bool)
| WithValidate (b : bool)
| WithKeySet (jwks : option S).
Arguments WithVerify {S} b.
Arguments WithValidate {S} b.
Arguments WithKeySet {S} jwks.

(** ** The collaborators outside the package *)

Class Collaborators := {
  Ctx : Type;                      (* context.Context *)
  jwkSet : Type;                   (* jwk.Set *)
  Value : Type;                    (* structpb.Value *)
  Cache : Type;                    (* the state of a gcache.Cache *)
  (* encoding/base64, jwk, jwt *)
  base64_DecodeString : string -> string + error;
  jwk_Parse : string -> bool -> jwkSet + error;
  jwk_ReadFile : string -> bool -> jwkSet + error;
  jwkCache_Get : Ctx -> string -> option jwkSet * option error;
  jwt_ParseString : string -> list (ParseOption jwkSet) -> jwtToken + error;
  (* gcache *)
  gcache_New : Z -> Cache;
  gcache_GetIFPresent : Cache -> string -> Cache * option error;
  gcache_SetWithExpire : Cache -> string -> unit -> Duration -> Cache * option error;
  (* util.ToStructPB *)
  ToStructPB : any -> Value + error;
  (* time.Now *)
  time_Now : Time
}.

(** [time.Until(t)] *)
Definition time_Until `{Collaborators} (t : Time) : Duration :=
  time_Sub t time_Now.

(** ** Keysets *)

Section KeySets.
Context `{Collaborators}.

(** [remoteKeySet]: the shared refresher is the collaborator; the struct
    keeps the URL. *)
Record remoteKeySet := { url : string }.

(** What [jwk.ReadFile] finds on disk, at one moment. *)
Definition Files : Type := string -> bool -> jwkSet + error.

(** [localKeySet] is a function type; [None] is its [nil].  The body of a
    function value runs when it is called, with the disk as it is then:
    the value takes the [Files] of the call. *)
Definition localKeySet : Type :=
  option (Files -> Ctx -> option jwkSet * option error).

(** A [*jwk.Cache] is known here by the calls to [Register] made on it
    since [jwk.NewCache], in order: the URL of each call and the interval
    passed with [WithRefreshInterval], if one was.  [Register] answers with
    an error that [newRemoteKeySet] drops; whether the library accepted a
    call, and what it then holds, is not recorded. *)
Definition jwkCache : Type := list (string * option Duration).

(** [newRemoteKeySet] makes one call to [Register], with
    [WithRefreshInterval] when the interval is positive and without it
    otherwise, and drops the error. *)

Definition newRemoteKeySet (cache : jwkCache) (src : RemoteSource)
  : jwkCache * remoteKeySet :=
  let cache' :=
    if 0 <? RefreshInterval src
    then (cache ++ [(URL src, Some (RefreshInterval src))])%list
    else (cache ++ [(URL src, None)])%list in
  (cache', {| url := URL src |}).

Definition remoteKeySet_keySet (rks : remoteKeySet) (ctx : Ctx)
  : option jwkSet * option error :=
  jwkCache_Get ctx (url rks).

Definition newLocalKeySet (src : LocalSource) : localKeySet :=
  if negb (String.eqb (Data src) "") then
    match base64_DecodeString (Data src) with
    | inr err =>
        Some (fun _ _ => (None, Some (fmt_Errorf_w
          "[ERR-261] failed to apply base64 decoder to key data: %w" err)))
    | inl kbytes =>
        match jwk_Parse kbytes (PEM src) with
        | inr err =>
            Some (fun _ _ => (None, Some (fmt_Errorf_w
              "[ERR-262] failed to parse key data: %w" err)))
        | inl ks => Some (fun _ _ => (Some ks, None))
        end
    end
  else
    match jwk_ReadFile (File src) (PEM src) with
    | inr err =>
        Some (fun _ _ => (None, Some (fmt_Errorf_sw
          "[ERR-263] failed to read keyset from '%s': %w" (File src) err)))
    | inl ks => Some (fun _ _ => (Some ks, None))
    end.

Definition localKeySet_keySet (lks : localKeySet) (ctx : Ctx)
  : option jwkSet * option error :=
  match lks with
  | None => (None, Some errNilLocalKeySet)
  | Some f => f jwk_ReadFile ctx
  end.

(** The [keySet] interface with its two implementations. *)
Inductive keySet : Type :=
| RemoteKS (rks : remoteKeySet)
| LocalKS (lks : localKeySet).

Definition keySet_keySet (ks : keySet) (ctx : Ctx)
  : option jwkSet * option error :=
  match ks with
  | RemoteKS rks => remoteKeySet_keySet rks ctx
  | LocalKS lks => localKeySet_keySet lks ctx
  end.

(** ** The helper *)

Record jwtHelper := {
  keySets : gmap string keySet;
  cache : option Cache;
  verify : bool
}.

(** [mkCache]: the ARC cache of the given size; the size metric and the
    gauge callbacks it installs do not touch the cache contents. *)
Definition mkCache (size : Z) : Cache := gcache_New size.

(** The loop over [conf.KeySets] of [newJWTHelper]. *)
Definition addKeySet (acc : gmap string keySet * option jwkCache) (ks : KeySetConf)
  : gmap string keySet * option jwkCache :=
  let '(m, jc) := acc in
  match Remote ks with
  | Some r =>
      let jc0 := match jc with Some c => c | None => [] end in
      let '(jc1, rks) := newRemoteKeySet jc0 r in
      (<[ID ks := RemoteKS rks]> m, Some jc1)
  | None =>
      match Local ks with
      | Some l => (<[ID ks := LocalKS (newLocalKeySet l)]> m, jc)
      | None => (m, jc)
      end
  end.

Definition newJWTHelper (conf : option JWTConf) : jwtHelper * option jwkCache :=
  match conf with
  | None => ({| keySets := ∅; cache := None; verify := true |}, None)
  | Some conf =>
      let v := negb (DisableVerification conf) in
      if v then
        let '(m, jc) := fold_left addKeySet (KeySets conf) (∅, None) in
        ({| keySets := m;
            cache := if 0 <? CacheSize conf then Some (mkCache (CacheSize conf)) else None;
            verify := v |}, jc)
      else ({| keySets := ∅; cache := None; verify := v |}, None)
  end.

End KeySets.

(** ** Calls, events and the method monad *)

Inductive outcome (A : Type) : Type :=
| Returns (a : A)
| Panics (msg : string).
Arguments Returns {A} a.
Arguments Panics {A} msg.

Section Extract.
Context `{Collaborators}.

(** The calls that leave the package during one [extract]. *)
Inductive Event : Type :=
| EvSpanStart (name : string)                       (* tracing.StartSpan *)
| EvSpanEnd                                         (* span.End *)
| EvCacheGet (key : string)                         (* cache.GetIFPresent *)
| EvCacheHit                                        (* cacheHit() *)
| EvCacheMiss                                       (* cacheMiss() *)
| EvCacheSet (key : string) (ttl : Duration)        (* cache.SetWithExpire *)
| EvKeySet (ks : keySet)                            (* ks.keySet(ctx) *)
| EvParse (token : string) (opts : list (ParseOption jwkSet)) (* jwt.ParseString *)
| EvWarn (msg : string) (pair : any * any).         (* logger.Warn *)

(** The result of running a method: what it returned, the receiver after
    the call, and the calls it made, in order. *)
Record Run (A : Type) : Type :=
  { out : outcome A; self : jwtHelper; events : list Event }.
Arguments out {A} r.
Arguments self {A} r.
Arguments events {A} r.

Definition M (A : Type) : Type := jwtHelper -> Run A.

Definition ret {A} (a : A) : M A :=
  fun j => {| out := Returns a; self := j; events := [] |}.

Definition bind {A B} (m : M A) (f : A -> M B) : M B :=
  fun j =>
    let r := m j in
    match out r with
    | Returns a =>
        let r' := f a (self r) in
        {| out := out r'; self := self r'; events := (events r ++ events r')%list |}
    | Panics msg => {| out := Panics msg; self := self r; events := events r |}
    end.

Definition this : M jwtHelper :=
  fun j => {| out := Returns j; self := j; events := [] |}.

Definition emit (e : Event) : M unit :=
  fun j => {| out := Returns tt; self := j; events := [e] |}.

Definition panic {A} (msg : string) : M A :=
  fun j => {| out := Panics msg; self := j; events := [] |}.

(** [defer]: the deferred call runs when the body returns or panics. *)
Definition defer {A} (body : M A) (deferred : Event) : M A :=
  fun j =>
    let r := body j in
    {| out := out r; self := self r; events := (events r ++ [deferred])%list |}.

End Extract.

Arguments out {_ A} r.
Arguments self {_ A} r.
Arguments events {_ A} r.

Declare Scope go_scope.
Delimit Scope go_scope with go.
Notation "x <- c1 ;; c2" := (bind c1 (fun x => c2))
  (at level 100, c1 at next level, right associativity) : go_scope.
Notation "c1 ;; c2" := (bind c1 (fun _ => c2))
  (at level 100, right associativity) : go_scope.
Local Open Scope go_scope.

Section Methods.
Context `{Collaborators}.

Definition nilDeref : string :=
  "invalid memory address or nil pointer dereference".

(** The receiver once its cache object has moved to state [c]. *)
Definition withCache (j : jwtHelper) (c : Cache) : jwtHelper :=
  {| keySets := keySets j; cache := Some c; verify := verify j |}.

(** [j.cache.GetIFPresent(key)]; the value is discarded by every caller. *)
Definition cache_GetIFPresent (key : string) : M (option error) :=
  fun j =>
    match cache j with
    | None => panic nilDeref j
    | Some c =>
        let '(c', err) := gcache_GetIFPresent c key in
        {| out := Returns err;
           self := withCache j c';
           events := [EvCacheGet key] |}
    end.

(** [j.cache.SetWithExpire(key, value, expiry)] *)
Definition cache_SetWithExpire (key : string) (value : unit) (expiry : Duration)
  : M (option error) :=
  fun j =>
    match cache j with
    | None => panic nilDeref j
    | Some c =>
        let '(c', err) := gcache_SetWithExpire c key value expiry in
        {| out := Returns err;
           self := withCache j c';
           events := [EvCacheSet key expiry] |}
    end.

Definition cacheHit : M unit := emit EvCacheHit.
Definition cacheMiss : M unit := emit EvCacheMiss.

(** [ks.keySet(ctx)] on an interface value that may be nil. *)
Definition call_keySet (ks : option keySet) (ctx : Ctx)
  : M (option jwkSet * option error) :=
  match ks with
  | None => panic nilDeref
  | Some k => emit (EvKeySet k) ;; ret (keySet_keySet k ctx)
  end.

(** [for _, ksDef := range j.keySets { ks = ksDef }] *)
Definition rangeLast (m : gmap string keySet) : option keySet :=
  fold_left (fun _ kv => Some (snd kv)) (map_to_list m) None.

Definition skipSignature : list (ParseOption jwkSet) :=
  [WithVerify false; WithValidate true].

(** Lines 125-149 of [parseOptions]: choose the keyset, fetch its keys. *)
Definition keySetOptions (ctx : Ctx) (auxJWT : AuxData_JWT)
  : M (list (ParseOption jwkSet) * option error) :=
  j <- this ;;
  let selected : option keySet * option error :=
    (* if keyset ID is not provided and we only have one keyset configured,
       use that as the default. *)
    if String.eqb (KeySetId auxJWT) "" then
      if negb (Z.of_nat (size (keySets j)) =? 1) then (None, Some errNoKeySetToVerify)
      else (rangeLast (keySets j), None)
    else (* use the keyset specified in the request *)
      match keySets j !! KeySetId auxJWT with
      | None =>
          (None, Some (fmt_Errorf_s "[ERR-258] keyset not found: %s" (KeySetId auxJWT)))
      | Some ksDef => (Some ksDef, None)
      end in
  match selected with
  | (_, Some e) => ret ([], Some e)
  | (ks, None) =>
      r <- call_keySet ks ctx ;;
      match r with
      | (_, Some err) =>
          ret ([], Some (fmt_Errorf_w "[ERR-259] failed to retrieve keyset: %w" err))
      | (jwks, None) => ret ([WithKeySet jwks; WithValidate true], None)
      end
  end.

Definition parseOptions (ctx : Ctx) (auxJWT : AuxData_JWT) (cacheKey : string)
  : M (list (ParseOption jwkSet) * option error) :=
  j <- this ;;
  if negb (verify j) then ret (skipSignature, None)
  else
    (* Check whether this token has already been verified *)
    hit <- (if negb (String.eqb cacheKey "") then
              err <- cache_GetIFPresent cacheKey ;;
              match err with
              | None => cacheHit ;; ret true
              | Some _ => cacheMiss ;; ret false
              end
            else ret false) ;;
    if (hit : bool) then ret (skipSignature, None)
    else keySetOptions ctx auxJWT.

(** The body of the loop over the token's pairs. *)
Definition claimStep (jwtPBMap : gmap string Value) (p : any * any)
  : M (gmap string Value) :=
  let '(key, ok) := assert_string (fst p) in
  (if negb ok then
     emit (EvWarn "Ignoring JWT key-value pair because the key is not a string" p)
   else ret tt) ;;
  match ToStructPB (snd p) with
  | inr _ =>
      emit (EvWarn "Ignoring JWT key-value pair because the value is not in a known format" p) ;;
      ret jwtPBMap
  | inl value => ret (<[key := value]> jwtPBMap)
  end.

Fixpoint iterate (pairs : list (any * any)) (jwtPBMap : gmap string Value)
  : M (gmap string Value) :=
  match pairs with
  | [] => ret jwtPBMap
  | p :: rest => m <- claimStep jwtPBMap p ;; iterate rest m
  end.

(** The time-to-live chosen at lines 159-162. *)
Definition cacheExpiryFor (token : jwtToken) : Duration :=
  let exp := time_Until (Expiration token) in
  if 0 <? exp then exp else defaultCacheExpiry.

Definition doExtract (ctx : Ctx) (auxJWT : AuxData_JWT)
    (parseOpts : list (ParseOption jwkSet)) (cacheKey : string)
  : M (option (gmap string Value) * option error) :=
  emit (EvParse (Token auxJWT) parseOpts) ;;
  match jwt_ParseString (Token auxJWT) parseOpts with
  | inr err =>
      ret (None, Some (fmt_Errorf_w "[ERR-260] failed to parse JWT: %w" err))
  | inl token =>
      (if negb (String.eqb cacheKey "") then
         cache_SetWithExpire cacheKey cacheEntry (cacheExpiryFor token) ;; ret tt
       else ret tt) ;;
      jwtPBMap <- iterate (tokPairs token) ∅ ;;
      ret (Some jwtPBMap, None)
  end.

(** The cache key computed at lines 95-101 of [extract]. *)
Definition cacheKeyOf (j : jwtHelper) (token : string) : string :=
  match cache j with
  | Some _ =>
      let lastIdx := LastIndexByte token "." in
      if 0 <? lastIdx then slice_from token lastIdx else ""
  | None => ""
  end.

Definition extract (ctx : Ctx) (auxJWT : option AuxData_JWT)
  : M (option (gmap string Value) * option error) :=
  match auxJWT with
  | None => ret (None, None)
  | Some a =>
      if String.eqb (Token a) "" then ret (None, None)
      else
        emit (EvSpanStart "aux_data.ExtractJWT") ;;
        defer
          (j <- this ;;
           let cacheKey := cacheKeyOf j (Token a) in
           r <- parseOptions ctx a cacheKey ;;
           match r with
           | (_, Some err) => ret (None, Some err)
           | (parseOpts, None) => doExtract ctx a parseOpts cacheKey
           end)
          EvSpanEnd
  end.

End Methods.

(** ** Classification of events *)

Section Classify.
Context `{Collaborators}.

Definition isCacheCall (e : Event) : bool :=
  match e with
  | EvCacheGet _ | EvCacheHit | EvCacheMiss | EvCacheSet _ _ => true
  | _ => false
  end.

Definition isCacheSet (e : Event) : bool :=
  match e with EvCacheSet _ _ => true | _ => false end.

Definition isKeySetCall (e : Event) : bool :=
  match e with EvKeySet _ => true | _ => false end.

Definition isParseCall (e : Event) : bool :=
  match e with EvParse _ _ => true | _ => false end.

(** The cache was probed with [key]. *)
Definition probes (key : string) (e : Event) : bool :=
  match e with EvCacheGet k => String.eqb k key | _ => false end.

(** [key] was written to the cache with time-to-live [ttl]. *)
Definition writes (key : string) (ttl : Duration) (e : Event) : bool :=
  match e with EvCacheSet k t => String.eqb k key && (t =? ttl) | _ => false end.

(** No call of the given kind was made. *)
Definition never (kind : Event -> bool) (es : list Event) : Prop :=
  forallb (fun e => negb (kind e)) es = true.

(** What the loop over the pairs computes and logs, written as folds. *)
Definition claimsOf (pairs : list (any * any)) (m : gmap string Value)
  : gmap string Value :=
  fold_left
    (fun acc p =>
       match ToStructPB (snd p) with
       | inl value => <[fst (assert_string (fst p)) := value]> acc
       | inr _ => acc
       end) pairs m.

Definition warningsOf (pairs : list (any * any)) : list Event :=
  flat_map
    (fun p =>
       ((if snd (assert_string (fst p)) then []
         else [EvWarn "Ignoring JWT key-value pair because the key is not a string" p])
        ++
        (match ToStructPB (snd p) with
         | inl _ => []
         | inr _ => [EvWarn "Ignoring JWT key-value pair because the value is not in a known format" p]
         end))%list) pairs.

End Classify.

(** ** The vocabulary of the statements *)

Section Vocabulary.
Context `{Collaborators}.

(** Lines 144-149: the options built from what the chosen keyset returned. *)
Definition keySetResult (r : option jwkSet * option error)
  : list (ParseOption jwkSet) * option error :=
  match r with
  | (_, Some err) =>
      ([], Some (fmt_Errorf_w "[ERR-259] failed to retrieve keyset: %w" err))
  | (jwks, None) => ([WithKeySet jwks; WithValidate true], None)
  end.

Definition errKeySetNotFound (id : string) : error :=
  fmt_Errorf_s "[ERR-258] keyset not found: %s" id.

Definition errParse (err : error) : error :=
  fmt_Errorf_w "[ERR-260] failed to parse JWT: %w" err.

(** The probe of [parseOptions] did not hit: there was no key to probe
    with, or the cache answered with an error. The receiver after the
    probe and the calls made are recorded. *)
Inductive notHit (j : jwtHelper) (key : string) : jwtHelper -> list Event -> Prop :=
| NoKey : key = "" -> notHit j key j []
| Missed (c c' : Cache) (e : error) :
    key <> "" -> cache j = Some c ->
    gcache_GetIFPresent c key = (c', Some e) ->
    notHit j key (withCache j c') [EvCacheGet key; EvCacheMiss].

(** The probe hit. *)
Definition hit (j : jwtHelper) (key : string) (c' : Cache) : Prop :=
  key <> "" /\ exists c, cache j = Some c /\ gcache_GetIFPresent c key = (c', None).

Definition spanned {A} (r : Run A) : Run A :=
  {| out := out r; self := self r;
     events := EvSpanStart "aux_data.ExtractJWT" :: (events r ++ [EvSpanEnd])%list |}.

(** [r] with the calls [pre] made before it. *)
Definition after {A} (pre : list Event) (r : Run A) : Run A :=
  {| out := out r; self := self r; events := (pre ++ events r)%list |}.

(** Every run of [doExtract] is one of four. *)
Inductive doExtractRun (ctx : Ctx) (a : AuxData_JWT)
    (opts : list (ParseOption jwkSet)) (key : string) (j : jwtHelper)
  : Run (option (gmap string Value) * option error) -> Prop :=
| DxFailed (err : error) :
    jwt_ParseString (Token a) opts = inr err ->
    doExtractRun ctx a opts key j
      {| out := Returns (None, Some (errParse err)); self := j;
         events := [EvParse (Token a) opts] |}
| DxUncached (token : jwtToken) :
    jwt_ParseString (Token a) opts = inl token -> key = "" ->
    doExtractRun ctx a opts key j
      {| out := Returns (Some (claimsOf (tokPairs token) ∅), None); self := j;
         events := EvParse (Token a) opts :: warningsOf (tokPairs token) |}
| DxCached (token : jwtToken) (c : Cache) :
    jwt_ParseString (Token a) opts = inl token -> key <> "" -> cache j = Some c ->
    doExtractRun ctx a opts key j
      {| out := Returns (Some (claimsOf (tokPairs token) ∅), None);
         self := withCache j
                   (fst (gcache_SetWithExpire c key cacheEntry (cacheExpiryFor token)));
         events := EvParse (Token a) opts
                   :: EvCacheSet key (cacheExpiryFor token)
                   :: warningsOf (tokPairs token) |}
| DxNilCache (token : jwtToken) :
    jwt_ParseString (Token a) opts = inl token -> key <> "" -> cache j = None ->
    doExtractRun ctx a opts key j
      {| out := Panics nilDeref; self := j; events := [EvParse (Token a) opts] |}.

(** The time-to-live as the specification words it: what is left of the
    token's validity, never negative, or the default for a token without
    an expiry. *)
Definition remainingOrDefault (token : jwtToken) : Duration :=
  match tokExp token with
  | Some e => Z.max (e - time_Now) 0
  | None => defaultCacheExpiry
  end.

End Vocabulary.

(** The collaborators at a later moment, when the disk reads as [disk]:
    of what a local keyset is built from, the content of the key file is
    the one thing that can change between its construction and a call. *)
Definition onDisk `{Collaborators} (disk : Files) : Collaborators :=
  {| Ctx := Ctx;
     jwkSet := jwkSet;
     Value := Value;
     Cache := Cache;
     base64_DecodeString := base64_DecodeString;
     jwk_Parse := jwk_Parse;
     jwk_ReadFile := disk;
     jwkCache_Get := jwkCache_Get;
     jwt_ParseString := jwt_ParseString;
     gcache_New := gcache_New;
     gcache_GetIFPresent := gcache_GetIFPresent;
     gcache_SetWithExpire := gcache_SetWithExpire;
     ToStructPB := ToStructPB;
     time_Now := time_Now |}.

(** A call of [keySet] on the local keyset [lks] at the moment the disk
    reads as [later]. *)
Definition keySetLater `{Collaborators} (later : Files) (lks : localKeySet)
    (ctx : Ctx) : option jwkSet * option error :=
  keySet_keySet (H := onDisk later) (LocalKS (H := onDisk later) lks) ctx.

(** The cache key as the specification words it: the signature segment,
    when the token has a separator and that segment is not empty. *)
Definition segmentCacheKey (token : string) : string :=
  if 0 <=? LastIndexByte token "." then signatureSegment token else "".

(** ** A concrete set of collaborators

    A cache that is a finite map from keys to the time-to-live they were
    stored with, a conversion that accepts every value but those of an
    unknown dynamic type, and a parser for a handful of token strings whose
    validation clock reads [parseClock]. *)

Module Demo.

Definition parseClock : Time := 1700000000 * Second.

Definition decode (s : string) : option (jwtToken * string) :=
  if String.eqb s "h.fresh.sig" then
    Some ({| tokExp := Some (parseClock + 300 * Second);
             tokPairs := [(AnyString "sub", AnyString "u1")] |}, "K")
  else if String.eqb s "h.stale.sig" then
    Some ({| tokExp := Some (parseClock - 1 * Second);
             tokPairs := [(AnyString "sub", AnyString "u1")] |}, "K")
  else if String.eqb s "h.edge.sig" then
    Some ({| tokExp := Some (parseClock + 1);
             tokPairs := [(AnyString "sub", AnyString "u1")] |}, "K")
  else if String.eqb s "h.noexp.sig" then
    Some ({| tokExp := None;
             tokPairs := [(AnyString "sub", AnyString "u1")] |}, "K")
  else if String.eqb s "h.p." then
    Some ({| tokExp := None; tokPairs := [] |}, "")
  else None.

Definition wantsValidate (opts : list (ParseOption string)) : bool :=
  existsb (fun o => match o with WithValidate true => true | _ => false end) opts.

Definition skipsVerify (opts : list (ParseOption string)) : bool :=
  existsb (fun o => match o with WithVerify false => true | _ => false end) opts.

Definition hasKey (k : string) (opts : list (ParseOption string)) : bool :=
  existsb (fun o => match o with WithKeySet (Some k') => String.eqb k k' | _ => false end) opts.

Definition parse (s : string) (opts : list (ParseOption string)) : jwtToken + error :=
  match decode s with
  | None => inr (errors_New "invalid compact serialization")
  | Some (tok, k) =>
      if negb (skipsVerify opts) && negb (hasKey k opts)
      then inr (errors_New "could not verify message")
      else if wantsValidate opts
                && match tokExp tok with Some e => e <=? parseClock | None => false end
      then inr (errors_New "exp not satisfied")
      else inl tok
  end.

Definition convert (v : any) : any + error :=
  match v with
  | AnyOther t => inr (errors_New "unsupported type")
  | _ => inl v
  end.

Definition probe (c : gmap string Duration) (key : string)
  : gmap string Duration * option error :=
  match c !! key with
  | Some _ => (c, None)
  | None => (c, Some (errors_New "key not found"))
  end.

Definition store (c : gmap string Duration) (key : string) (_ : unit) (ttl : Duration)
  : gmap string Duration * option error :=
  (<[key := ttl]> c, None).

Definition keyFile (path : string) (pem : bool) : string + error :=
  if String.eqb path "keys.jwk" then inl "K"
  else inr (errors_New "no such file").

Definition unbase64 (s : string) : string + error :=
  if String.eqb s "Sw==" then inl "K"
  else inr (errors_New "illegal base64 data").

Definition parseKey (bytes : string) (pem : bool) : string + error :=
  if String.eqb bytes "K" then inl "K"
  else inr (errors_New "failed to unmarshal JWK set").

(** The collaborators when [time.Now] reads [now]. *)
Definition at_time (now : Time) : Collaborators :=
  {| Ctx := unit;
     jwkSet := string;
     Value := any;
     Cache := gmap string Duration;
     base64_DecodeString := unbase64;
     jwk_Parse := parseKey;
     jwk_ReadFile := keyFile;
     jwkCache_Get := fun _ u => (None, Some (fmt_Errorf_s "failed to fetch %s" u));
     jwt_ParseString := parse;
     gcache_New := fun _ => ∅;
     gcache_GetIFPresent := probe;
     gcache_SetWithExpire := store;
     ToStructPB := convert;
     time_Now := now |}.

Definition world : Collaborators := at_time parseClock.

(** One local keyset ["ks1"] holding the key of the demo tokens, and a
    cache of capacity 16. *)
Definition conf1 : JWTConf :=
  {| DisableVerification := false;
     KeySets := [{| ID := "ks1"; Remote := None;
                    Local := Some {| Data := "Sw=="; File := ""; PEM := false |} |}];
     CacheSize := 16 |}.

(** The same configuration with the cache switched off. *)
Definition conf0 : JWTConf :=
  {| DisableVerification := false; KeySets := KeySets conf1; CacheSize := 0 |}.

(** Verification switched off, no keyset configured. *)
Definition confOff : JWTConf :=
  {| DisableVerification := true; KeySets := []; CacheSize := 16 |}.

Definition helper (now : Time) (conf : JWTConf) : @jwtHelper (at_time now) :=
  fst (@newJWTHelper (at_time now) (Some conf)).

Definition request (token id : string) : option AuxData_JWT :=
  Some {| Token := token; KeySetId := id |}.

(** Whether the registry of [j] has a keyset under [id]. *)
Definition configured {now : Time} (j : @jwtHelper (at_time now)) (id : string) : bool :=
  match @keySets (at_time now) j !! id with Some _ => true | None => false end.

End Demo.

(** ** The vocabulary of the further statements *)

Section Registry.
Context `{Collaborators}.

(** The keyset [newJWTHelper] stores for one entry of [conf.KeySets]: the
    remote one when [Remote] is set, else the local one when [Local] is
    set, none when neither is. *)
Definition keySetOf (ks : KeySetConf) : option keySet :=
  match Remote ks with
  | Some r => Some (RemoteKS {| url := URL r |})
  | None =>
      match Local ks with
      | Some l => Some (LocalKS (newLocalKeySet l))
      | None => None
      end
  end.

(** The call to [Register] that [newRemoteKeySet] makes for [src]. *)
Definition registerCall (src : RemoteSource) : string * option Duration :=
  (URL src, if 0 <? RefreshInterval src then Some (RefreshInterval src) else None).

(** Two helpers that differ at most in the state of their cache object. *)
Definition sameButCacheState (j j' : jwtHelper) : Prop :=
  keySets j' = keySets j /\ verify j' = verify j /\
  (cache j = None <-> cache j' = None).

(** The error of a keyset that could not deliver its keys. *)
Definition errKeySetRetrieve (err : error) : error :=
  fmt_Errorf_w "[ERR-259] failed to retrieve keyset: %w" err.

(** What one call to the parser may look like: the token of the request,
    validation on, and the signature check either on with the keys of a
    keyset or off. *)
Definition parseCallOf (a : AuxData_JWT) (e : Event) : Prop :=
  match e with
  | EvParse tok opts =>
      tok = Token a /\
      (opts = skipSignature \/ exists jwks, opts = [WithKeySet jwks; WithValidate true])
  | _ => True
  end.

Definition usesSkipSignature (e : Event) : bool :=
  match e with
  | EvParse _ [WithVerify false; WithValidate true] => true
  | _ => false
  end.

End Registry.

Section Selection.
Context `{Collaborators}.

(** The keyset the request selects in the registry of [j]: the only one
    when the request names none, the one stored under the name
    otherwise. *)
Definition selected (a : AuxData_JWT) (j : jwtHelper) (ks : keySet) : Prop :=
  (KeySetId a = "" /\ exists id, keySets j = {[id := ks]}) \/
  (KeySetId a <> "" /\ keySets j !! KeySetId a = Some ks).

End Selection.

Section CacheCalls.
Context `{Collaborators}.

(** What a call to the cache may look like during [extract] on [j] for the
    request [a]: made with the key derived from the token, which is not
    empty, and, for a write, with a time-to-live that is positive and fits
    a [Duration]. *)
Definition cacheCallOf (a : AuxData_JWT) (j : jwtHelper) (e : Event) : Prop :=
  match e with
  | EvCacheGet k => k = cacheKeyOf j (Token a) /\ k <> ""
  | EvCacheSet k ttl =>
      k = cacheKeyOf j (Token a) /\ k <> "" /\ 0 < ttl <= maxDuration
  | _ => True
  end.

End CacheCalls.

Section ClaimSteps.
Context `{Collaborators}.

(** What one pair does to the mapping. *)
Definition claimOf (acc : gmap string Value) (p : any * any) : gmap string Value :=
  match ToStructPB (snd p) with
  | inl value => <[fst (assert_string (fst p)) := value]> acc
  | inr _ => acc
  end.

End ClaimSteps.

(** ** Further concrete configurations *)

Module Samples.
Import Demo.

(** Two keysets: a local one whose inline data is not base64, and a remote
    one. *)
Definition confBroken : JWTConf :=
  {| DisableVerification := false;
     KeySets := [{| ID := "bad"; Remote := None;
                    Local := Some {| Data := "not base64"; File := ""; PEM := false |} |};
                 {| ID := "far";
                    Remote := Some {| URL := "https://keys.example/jwks";
                                      RefreshInterval := 0 |};
                    Local := None |}];
     CacheSize := 0 |}.

(** The name ["ks1"] defined twice, an entry that defines nothing, and an
    entry with both sources. *)
Definition confTwice : JWTConf :=
  {| DisableVerification := false;
     KeySets := [{| ID := "ks1"; Remote := None;
                    Local := Some {| Data := "not base64"; File := ""; PEM := false |} |};
                 {| ID := "ks1"; Remote := None;
                    Local := Some {| Data := "Sw=="; File := ""; PEM := false |} |};
                 {| ID := "ks1"; Remote := None; Local := None |};
                 {| ID := "both";
                    Remote := Some {| URL := "https://keys.example/a";
                                      RefreshInterval := 90 * Second |};
                    Local := Some {| Data := ""; File := "keys.jwk"; PEM := true |} |}];
     CacheSize := 16 |}.

End Samples.

(** * File classification (internal/util/filesystem.go) *)

Module Util.

(** ** Strings and paths (packages strings and path/filepath) *)

Fixpoint take_bytes (n : nat) (s : string) : string :=
  match n, s with
  | O, _ => EmptyString
  | S n', String c s' => String c (take_bytes n' s')
  | S _, EmptyString => EmptyString
  end.

(** [strings.HasPrefix] *)
Fixpoint HasPrefix (s prefix : string) {struct prefix} : bool :=
  match prefix, s with
  | EmptyString, _ => true
  | String p prefix', String c s' => Ascii.eqb c p && HasPrefix s' prefix'
  | String _ _, EmptyString => false
  end.

(** [strings.HasSuffix]: [len(s) >= len(suffix)] and
    [s[len(s)-len(suffix):] == suffix]. *)
Definition HasSuffix (s suffix : string) : bool :=
  (String.length suffix <=? String.length s)%nat &&
  String.eqb (drop_bytes (String.length s - String.length suffix) s) suffix.

(** [strings.TrimPrefix] *)
Definition TrimPrefix (s prefix : string) : string :=
  if HasPrefix s prefix then drop_bytes (String.length prefix) s else s.

Definition isUpper (c : ascii) : bool :=
  (65 <=? nat_of_ascii c)%nat && (nat_of_ascii c <=? 90)%nat.

Definition lower_byte (c : ascii) : ascii :=
  if isUpper c then ascii_of_nat (nat_of_ascii c + 32) else c.

(** Whether every byte of [s] is below 0x80. *)
Fixpoint isASCII (s : string) : bool :=
  match s with
  | EmptyString => true
  | String c s' => (nat_of_ascii c <? 128)%nat && isASCII s'
  end.

(** [strings.ToLower] on a string of ASCII bytes: the letters A to Z are
    mapped to a to z. What the function does to the bytes of other runes
    is not modelled, and the statements that go through it are made for
    ASCII names. *)
Fixpoint ToLower (s : string) : string :=
  match s with
  | EmptyString => EmptyString
  | String c s' => String (lower_byte c) (ToLower s')
  end.

(** [filepath.Ext] with the separator of Unix: the suffix that starts at
    the last dot of the last element of the path, empty when that element
    has no dot. The scan of the library runs back from the end of the path
    and stops at the first dot or separator it meets, so it returns a
    suffix exactly when the last dot comes after the last separator. *)
Definition Ext (path : string) : string :=
  let dot := LastIndexByte path "." in
  if (0 <=? dot) && (LastIndexByte path "/" <? dot) then slice_from path dot
  else EmptyString.

(** ** The functions of the file *)

Definition supportedFileTypes : gset string := {[ ".yaml"; ".yml"; ".json" ]}.

Definition ErrNoMatchingFiles : error := errors_New "[ERR-617] no matching files".

Definition SchemasDirectory : string := "_schemas".
Definition TestDataDirectory : string := "testdata".

Definition IsSupportedFileTypeExt (fileName : string) : string * bool :=
  let ext := ToLower (Ext fileName) in
  (ext, bool_decide (ext ∈ supportedFileTypes)).

Definition IsSupportedTestFile (fileName : string) : bool :=
  let '(ext, ok) := IsSupportedFileTypeExt fileName in
  if ok then
    let f := ToLower fileName in
    HasSuffix (take_bytes (String.length f - String.length ext) f) "_test"
  else false.

Definition IsJSONFileTypeExt (fileName : string) : bool :=
  let ext := ToLower (Ext fileName) in
  String.eqb ext ".json".

Definition IsSupportedFileType (fileName : string) : bool :=
  snd (IsSupportedFileTypeExt fileName).

Definition IsHidden (fileName : string) : bool :=
  if String.eqb fileName "." || String.eqb fileName ".." then false
  else HasPrefix fileName ".".

Inductive IndexedFileType : Type :=
| FileTypeNotIndexed
| FileTypePolicy
| FileTypeSchema.

(** The test of the loop of [FileType] on one segment. *)
Definition excluded (inSchemas : bool) (segment : string) : bool :=
  IsHidden segment || (String.eqb segment TestDataDirectory && negb inSchemas).

Definition FileType (path : string) : IndexedFileType :=
  let segments := Split path "/" in
  let fileName := List.last segments EmptyString in
  let inSchemas := String.eqb (List.hd EmptyString segments) SchemasDirectory in
  if existsb (excluded inSchemas) segments then FileTypeNotIndexed
  else if inSchemas then
    if IsJSONFileTypeExt fileName then FileTypeSchema else FileTypeNotIndexed
  else if IsSupportedFileType fileName && negb (IsSupportedTestFile fileName)
  then FileTypePolicy
  else FileTypeNotIndexed.

Definition RelativeSchemaPath (path : string) : string * bool :=
  let schemaPath := TrimPrefix path (SchemasDirectory ++ "/") in
  if String.eqb schemaPath path then (EmptyString, false) else (schemaPath, true).

(** [OpenOneOfSupportedFiles] over a file system given by what [fs.Glob]
    and [fsys.Open] return. *)
Definition OpenOneOfSupportedFiles {File : Type}
    (Glob : string -> list string + error) (Open : string -> File + error)
    (fileName : string) : option File * option error :=
  match Glob (fileName ++ ".*") with
  | inr err => (None, Some err)
  | inl matches =>
      let filepath :=
        match List.find IsSupportedFileType matches with
        | Some m => m
        | None => EmptyString
        end in
      if String.eqb filepath "" then (None, Some ErrNoMatchingFiles)
      else match Open filepath with
           | inr err => (None, Some err)
           | inl file => (Some file, None)
           end
  end.

End Util.

(** * Streaming audit logs (cmd/cerbosctl/audit/audit.go) *)

Module Audit.

Section Stream.
(** [Msg] is [proto.Message] and [W] the state of an [auditLogWriter]. *)
Context {Msg W : Type}.

(** What the loop uses of a [client.AuditLogEntry]: the results of its
    methods [AccessLog] and [DecisionLog]. *)
Record AuditLogEntry := {
  AccessLog : option Msg * option error;
  DecisionLog : option Msg * option error
}.

(** [writer.write] *)
Variable write : W -> Msg -> W * option error.

(** [streamLogsToWriter] over the entries the channel delivers before it is
    closed. *)
Fixpoint streamLogsToWriter (writer : W) (entries : list AuditLogEntry)
  : W * option error :=
  match entries with
  | [] => (writer, None)
  | e :: rest =>
      match AccessLog e with
      | (_, Some err) =>
          (writer, Some (fmt_Errorf_w "[ERR-153] error while receiving access logs: %w" err))
      | (Some aLog, None) =>
          match write writer aLog with
          | (writer', Some err) => (writer', Some err)
          | (writer', None) => streamLogsToWriter writer' rest
          end
      | (None, None) =>
          match DecisionLog e with
          | (_, Some err) =>
              (writer, Some (fmt_Errorf_w
                 "[ERR-154] error while receiving decision logs: %w" err))
          | (Some dLog, None) =>
              match write writer dLog with
              | (writer', Some err) => (writer', Some err)
              | (writer', None) => streamLogsToWriter writer' rest
              end
          | (None, None) => streamLogsToWriter writer rest
          end
      end
  end.

(** The log an entry contributes: its access log when it has one, else its
    decision log. *)
Definition logOf (e : AuditLogEntry) : option Msg :=
  match fst (AccessLog e) with
  | Some aLog => Some aLog
  | None => fst (DecisionLog e)
  end.

(** An entry whose methods report no error on the way to its log. *)
Definition received (e : AuditLogEntry) : Prop :=
  snd (AccessLog e) = None /\ (fst (AccessLog e) = None -> snd (DecisionLog e) = None).

End Stream.

Arguments AuditLogEntry Msg : clear implicits.

Definition newline : string := String (ascii_of_nat 10) EmptyString.

(** [rawAuditLogWriter.write] over what [protojson.Marshal] returns and
    what [Write] does to the state of the [io.Writer] behind [r.out]. *)
Definition raw_write {Msg Out : Type}
    (Marshal : Msg -> string + error) (Write : Out -> string -> Out * option error)
    (out : Out) (entry : Msg) : Out * option error :=
  match Marshal entry with
  | inr err => (out, Some err)
  | inl outBytes =>
      match Write out outBytes with
      | (out1, Some err) => (out1, Some err)
      | (out1, None) => Write out1 newline
      end
  end.

End Audit.

(** * Properties *)

(** ** Strings *)

Example LastIndexByte_of_token : LastIndexByte "h.p.sig" "." = 3.
Proof. reflexivity. Qed.

Example LastIndexByte_without_separator : LastIndexByte "hpsig" "." = -1.
Proof. reflexivity. Qed.

Example slice_from_last_separator : slice_from "h.p.sig" 3 = ".sig".
Proof. reflexivity. Qed.

(** Without the separator the string is its own single segment. *)
Lemma Split_absent (s : string) (c : ascii) :
  LastIndexByte s c < 0 -> Split s c = [s].
Proof.
  induction s as [|a s IH]; simpl; [reflexivity|].
  destruct (0 <=? LastIndexByte s c) eqn:E.
  - apply Z.leb_le in E. lia.
  - apply Z.leb_gt in E. destruct (Ascii.eqb a c); [lia|].
    intros _. rewrite (IH E). reflexivity.
Qed.

(** With the separator there are at least two segments. *)
Lemma Split_present (s : string) (c : ascii) :
  0 <= LastIndexByte s c -> exists x y l, Split s c = x :: y :: l.
Proof.
  induction s as [|a s IH]; simpl; [lia|].
  destruct (0 <=? LastIndexByte s c) eqn:E.
  - apply Z.leb_le in E. destruct (IH E) as (x & y & l & ->). intros _.
    destruct (Ascii.eqb a c); eauto.
  - apply Z.leb_gt in E. destruct (Ascii.eqb a c) eqn:Ea; [|lia].
    intros _. rewrite (Split_absent _ _ E). eauto.
Qed.

Lemma last_Split_cons (a : ascii) (s : string) (c : ascii) :
  0 <= LastIndexByte s c ->
  List.last (Split (String a s) c) EmptyString = List.last (Split s c) EmptyString.
Proof.
  intros Hp. destruct (Split_present _ _ Hp) as (x & y & l & E).
  simpl. rewrite E. destruct (Ascii.eqb a c); reflexivity.
Qed.

(** Slicing at the last separator leaves the separator followed by the
    final segment. *)
Lemma slice_at_last_separator (s : string) (c : ascii) :
  0 <= LastIndexByte s c ->
  slice_from s (LastIndexByte s c) = String c (List.last (Split s c) EmptyString).
Proof.
  induction s as [|a s IH]; [simpl; lia|].
  intros Hp. cbn [LastIndexByte] in *.
  destruct (0 <=? LastIndexByte s c) eqn:E.
  - apply Z.leb_le in E. rewrite last_Split_cons by exact E.
    rewrite <- (IH E). unfold slice_from.
    replace (Z.to_nat (LastIndexByte s c + 1)) with (S (Z.to_nat (LastIndexByte s c))) by lia.
    reflexivity.
  - apply Z.leb_gt in E. destruct (Ascii.eqb a c) eqn:Ea; [|lia].
    apply Ascii.eqb_eq in Ea. subst a.
    unfold slice_from. simpl. rewrite Ascii.eqb_refl.
    rewrite (Split_absent _ _ E). reflexivity.
Qed.

(** ** Runs of the methods *)

Section Runs.
Context `{Collaborators}.

Lemma claimStep_run (m : gmap string Value) (p : any * any) (j : jwtHelper) :
  claimStep m p j =
  {| out := Returns (claimsOf [p] m); self := j; events := warningsOf [p] |}.
Proof.
  unfold claimStep, claimsOf, warningsOf. simpl.
  destruct (assert_string (fst p)) as [key ok]. simpl.
  destruct ok; simpl; destruct (ToStructPB (snd p)); reflexivity.
Qed.

Lemma iterate_run (pairs : list (any * any)) :
  forall (m : gmap string Value) (j : jwtHelper),
    iterate pairs m j =
    {| out := Returns (claimsOf pairs m); self := j; events := warningsOf pairs |}.
Proof.
  induction pairs as [|p rest IH]; intros m j; [reflexivity|].
  cbn [iterate]. unfold bind. rewrite claimStep_run. cbn [out self events].
  rewrite IH. cbn [out self events].
  unfold claimsOf, warningsOf. cbn [fold_left flat_map].
  rewrite app_nil_r. reflexivity.
Qed.

Lemma warnings_not_cache (pairs : list (any * any)) :
  never isCacheCall (warningsOf pairs).
Proof.
  unfold never, warningsOf. induction pairs as [|p rest IH]; [reflexivity|].
  cbn [flat_map]. rewrite !forallb_app, IH.
  destruct (snd (assert_string (fst p))), (ToStructPB (snd p)); reflexivity.
Qed.

(** *** The keyset block *)

Lemma size_one_singleton (m : gmap string keySet) :
  size m = 1%nat -> exists id ks, m = {[id := ks]}.
Proof.
  intros Hs. rewrite <- length_map_to_list in Hs.
  destruct (map_to_list m) as [|[id ks] [|? ?]] eqn:E; try discriminate.
  exists id, ks. rewrite <- (list_to_map_to_list m), E. simpl.
  apply insert_empty.
Qed.

Lemma rangeLast_singleton (id : string) (ks : keySet) :
  rangeLast ({[id := ks]} : gmap string keySet) = Some ks.
Proof. unfold rangeLast. rewrite map_to_list_singleton. reflexivity. Qed.

Lemma keySetOptions_none_configured ctx a j :
  KeySetId a = "" -> size (keySets j) <> 1%nat ->
  keySetOptions ctx a j =
  {| out := Returns ([], Some errNoKeySetToVerify); self := j; events := [] |}.
Proof.
  intros Hid Hs. unfold keySetOptions, bind, this. cbn [out self events].
  rewrite Hid. cbn [String.eqb].
  destruct (Z.of_nat (size (keySets j)) =? 1) eqn:E; [apply Z.eqb_eq in E; lia|].
  reflexivity.
Qed.

Lemma keySetOptions_sole ctx a j id ks :
  KeySetId a = "" -> keySets j = {[id := ks]} ->
  keySetOptions ctx a j =
  {| out := Returns (keySetResult (keySet_keySet ks ctx)); self := j;
     events := [EvKeySet ks] |}.
Proof.
  intros Hid Hm. unfold keySetOptions, bind, this. cbn [out self events].
  rewrite Hid, Hm, map_size_singleton, rangeLast_singleton.
  change (Z.of_nat 1 =? 1) with true. cbn [String.eqb negb].
  unfold call_keySet, bind, emit, ret. cbn [out self events].
  destruct (keySet_keySet ks ctx) as [jwks [err|]]; reflexivity.
Qed.

Lemma keySetOptions_unknown_id ctx a j :
  KeySetId a <> "" -> keySets j !! KeySetId a = None ->
  keySetOptions ctx a j =
  {| out := Returns ([], Some (errKeySetNotFound (KeySetId a))); self := j;
     events := [] |}.
Proof.
  intros Hid Hl. unfold keySetOptions, bind, this. cbn [out self events].
  apply String.eqb_neq in Hid. rewrite Hid, Hl. reflexivity.
Qed.

Lemma keySetOptions_known_id ctx a j ks :
  KeySetId a <> "" -> keySets j !! KeySetId a = Some ks ->
  keySetOptions ctx a j =
  {| out := Returns (keySetResult (keySet_keySet ks ctx)); self := j;
     events := [EvKeySet ks] |}.
Proof.
  intros Hid Hl. unfold keySetOptions, bind, this. cbn [out self events].
  apply String.eqb_neq in Hid. rewrite Hid, Hl.
  unfold call_keySet, bind, emit, ret. cbn [out self events].
  destruct (keySet_keySet ks ctx) as [jwks [err|]]; reflexivity.
Qed.

(** *** The probe *)

Lemma parseOptions_unverified ctx a key j :
  verify j = false ->
  parseOptions ctx a key j =
  {| out := Returns (skipSignature, None); self := j; events := [] |}.
Proof.
  intros Hv. unfold parseOptions, bind, this. cbn [out self events].
  rewrite Hv. reflexivity.
Qed.

Lemma parseOptions_hit ctx a key j c' :
  verify j = true -> hit j key c' ->
  parseOptions ctx a key j =
  {| out := Returns (skipSignature, None); self := withCache j c';
     events := [EvCacheGet key; EvCacheHit] |}.
Proof.
  intros Hv (Hk & c & Hc & Hg). apply String.eqb_neq in Hk.
  unfold parseOptions, bind, this, cache_GetIFPresent. cbn [out self events].
  rewrite Hv, Hk. cbn [negb]. rewrite Hc, Hg. reflexivity.
Qed.

Lemma parseOptions_not_hit ctx a key j j' pre :
  verify j = true -> notHit j key j' pre ->
  parseOptions ctx a key j =
  {| out := out (keySetOptions ctx a j'); self := self (keySetOptions ctx a j');
     events := (pre ++ events (keySetOptions ctx a j'))%list |}.
Proof.
  intros Hv Hn. unfold parseOptions, bind at 1 2, this. cbn [out self events].
  rewrite Hv. cbn [negb].
  destruct Hn as [Hk | c c' e Hk Hc Hg].
  - subst key. cbn [String.eqb negb ret out self events app].
    destruct (keySetOptions ctx a j) as [o s' es]. reflexivity.
  - apply String.eqb_neq in Hk. rewrite Hk. cbn [negb].
    unfold bind, cache_GetIFPresent. rewrite Hc, Hg. cbn.
    destruct (keySetOptions ctx a (withCache j c')) as [o s' es]. reflexivity.
Qed.

Lemma parseOptions_nil_cache ctx a key j :
  verify j = true -> key <> "" -> cache j = None ->
  parseOptions ctx a key j =
  {| out := Panics nilDeref; self := j; events := [] |}.
Proof.
  intros Hv Hk Hc. apply String.eqb_neq in Hk.
  unfold parseOptions, bind, this, cache_GetIFPresent. cbn [out self events].
  rewrite Hv, Hk. cbn [negb]. rewrite Hc. reflexivity.
Qed.

(** *** Parsing and the cache write *)

Lemma doExtract_parse_failed ctx a opts key j err :
  jwt_ParseString (Token a) opts = inr err ->
  doExtract ctx a opts key j =
  {| out := Returns (None, Some (errParse err)); self := j;
     events := [EvParse (Token a) opts] |}.
Proof.
  intros Hp. unfold doExtract, bind, emit. cbn [out self events].
  rewrite Hp. reflexivity.
Qed.

Lemma doExtract_uncached ctx a opts j token :
  jwt_ParseString (Token a) opts = inl token ->
  doExtract ctx a opts "" j =
  {| out := Returns (Some (claimsOf (tokPairs token) ∅), None); self := j;
     events := EvParse (Token a) opts :: warningsOf (tokPairs token) |}.
Proof.
  intros Hp. unfold doExtract, bind at 1, emit. cbn [out self events].
  rewrite Hp. cbn [String.eqb negb]. unfold bind, ret. cbn [out self events].
  rewrite iterate_run. cbn [out self events app]. rewrite app_nil_r. reflexivity.
Qed.

Lemma doExtract_cached ctx a opts key j token c :
  jwt_ParseString (Token a) opts = inl token ->
  key <> "" -> cache j = Some c ->
  doExtract ctx a opts key j =
  {| out := Returns (Some (claimsOf (tokPairs token) ∅), None);
     self := withCache j (fst (gcache_SetWithExpire c key cacheEntry (cacheExpiryFor token)));
     events := EvParse (Token a) opts
               :: EvCacheSet key (cacheExpiryFor token)
               :: warningsOf (tokPairs token) |}.
Proof.
  intros Hp Hk Hc. apply String.eqb_neq in Hk.
  unfold doExtract, bind at 1, emit. cbn [out self events].
  rewrite Hp, Hk. cbn [negb]. unfold bind, ret, cache_SetWithExpire.
  rewrite Hc. destruct (gcache_SetWithExpire c key cacheEntry (cacheExpiryFor token)) as [c1 e1].
  cbn [out self events fst]. rewrite iterate_run.
  cbn [out self events app]. rewrite app_nil_r. reflexivity.
Qed.

(** *** The whole call *)

Lemma extract_run ctx a j :
  Token a <> "" ->
  extract ctx (Some a) j =
  let key := cacheKeyOf j (Token a) in
  let r1 := parseOptions ctx a key j in
  spanned
    match out r1 with
    | Returns (_, Some err) =>
        {| out := Returns (None, Some err); self := self r1; events := events r1 |}
    | Returns (opts, None) =>
        let r2 := doExtract ctx a opts key (self r1) in
        {| out := out r2; self := self r2; events := (events r1 ++ events r2)%list |}
    | Panics msg => {| out := Panics msg; self := self r1; events := events r1 |}
    end.
Proof.
  intros Ht. apply String.eqb_neq in Ht. unfold extract. rewrite Ht.
  unfold spanned, defer, bind, this, emit. cbn [out self events app].
  destruct (parseOptions ctx a (cacheKeyOf j (Token a)) j) as [[[opts [err|]]|msg] j1 es1];
    cbn [out self events]; try rewrite app_nil_r; reflexivity.
Qed.

End Runs.

(** ** What a call can and cannot do *)

Section Frames.
Context `{Collaborators}.

Lemma never_app (kind : Event -> bool) (l1 l2 : list Event) :
  never kind (l1 ++ l2) <-> never kind l1 /\ never kind l2.
Proof. unfold never. rewrite forallb_app. apply andb_true_iff. Qed.

Lemma never_In (kind : Event -> bool) (l : list Event) (e : Event) :
  never kind l -> In e l -> kind e = false.
Proof.
  unfold never. rewrite forallb_forall. intros Hn Hi.
  specialize (Hn e Hi). destruct (kind e); [discriminate|reflexivity].
Qed.

Lemma never_spanned {A} (kind : Event -> bool) (r : Run A) :
  kind (EvSpanStart "aux_data.ExtractJWT") = false -> kind EvSpanEnd = false ->
  never kind (events r) -> never kind (events (spanned r)).
Proof.
  intros Hs He Hn. unfold spanned. cbn [events]. unfold never in *.
  cbn [forallb]. rewrite forallb_app, Hs, Hn. cbn. rewrite He. reflexivity.
Qed.

(** The keyset block leaves the receiver alone and makes at most one call,
    to the chosen keyset. *)
Lemma keySetOptions_frame ctx a j :
  self (keySetOptions ctx a j) = j /\
  (events (keySetOptions ctx a j) = [] \/
   exists ks, events (keySetOptions ctx a j) = [EvKeySet ks]).
Proof.
  unfold keySetOptions, bind, this. cbn [out self events].
  destruct (String.eqb (KeySetId a) "").
  - destruct (negb (Z.of_nat (size (keySets j)) =? 1)); [cbn; auto|].
    destruct (rangeLast (keySets j)) as [ks|]; [|cbn; auto].
    unfold call_keySet, bind, emit, ret. cbn [out self events].
    destruct (keySet_keySet ks ctx) as [jwks [err|]]; cbn; eauto.
  - destruct (keySets j !! KeySetId a) as [ks|]; [|cbn; auto].
    unfold call_keySet, bind, emit, ret. cbn [out self events].
    destruct (keySet_keySet ks ctx) as [jwks [err|]]; cbn; eauto.
Qed.

Lemma keySetOptions_never (kind : Event -> bool) ctx a j :
  (forall ks, kind (EvKeySet ks) = false) ->
  never kind (events (keySetOptions ctx a j)).
Proof.
  intros Hk. destruct (keySetOptions_frame ctx a j) as [_ [-> | [ks ->]]];
    unfold never; cbn; [|rewrite Hk]; reflexivity.
Qed.

(** With nothing to probe with, [parseOptions] makes no cache call. *)
Lemma parseOptions_uncached_frame ctx a j :
  self (parseOptions ctx a "" j) = j /\
  never isCacheCall (events (parseOptions ctx a "" j)).
Proof.
  destruct (verify j) eqn:Hv.
  - rewrite (parseOptions_not_hit ctx a "" j j [] Hv (NoKey j "" eq_refl)).
    cbn [out self events app]. split.
    + apply keySetOptions_frame.
    + apply keySetOptions_never. reflexivity.
  - rewrite parseOptions_unverified by exact Hv. split; reflexivity.
Qed.

(** [parseOptions] never writes to the cache and never parses. *)
Lemma parseOptions_never (kind : Event -> bool) ctx a key j :
  (forall ks, kind (EvKeySet ks) = false) ->
  (forall k, kind (EvCacheGet k) = false) ->
  kind EvCacheHit = false -> kind EvCacheMiss = false ->
  never kind (events (parseOptions ctx a key j)).
Proof.
  intros Hks Hget Hhit Hmiss.
  destruct (verify j) eqn:Hv; [|rewrite parseOptions_unverified by exact Hv; reflexivity].
  destruct (String.eqb key "") eqn:Hk.
  - apply String.eqb_eq in Hk. subst key.
    rewrite (parseOptions_not_hit ctx a "" j j [] Hv (NoKey j "" eq_refl)).
    cbn [events app]. apply keySetOptions_never, Hks.
  - apply String.eqb_neq in Hk. destruct (cache j) as [c|] eqn:Hc.
    + destruct (gcache_GetIFPresent c key) as [c' [e|]] eqn:Hg.
      * rewrite (parseOptions_not_hit ctx a key j _ _ Hv (Missed j key c c' e Hk Hc Hg)).
        cbn [events]. apply never_app. split.
        -- unfold never. cbn. rewrite Hget, Hmiss. reflexivity.
        -- apply keySetOptions_never, Hks.
      * rewrite (parseOptions_hit ctx a key j c' Hv).
        -- unfold never. cbn. rewrite Hget, Hhit. reflexivity.
        -- split; [exact Hk|]. exists c. auto.
    + rewrite parseOptions_nil_cache by assumption. reflexivity.
Qed.

(** Without a cache key [doExtract] makes no cache call either. *)
Lemma doExtract_uncached_frame ctx a opts j :
  self (doExtract ctx a opts "" j) = j /\
  never isCacheCall (events (doExtract ctx a opts "" j)).
Proof.
  destruct (jwt_ParseString (Token a) opts) as [token|err] eqn:Hp.
  - rewrite (doExtract_uncached ctx a opts j token Hp). split; [reflexivity|].
    cbn [events]. apply (never_app isCacheCall [_] _). split; [reflexivity|].
    apply warnings_not_cache.
  - rewrite (doExtract_parse_failed ctx a opts "" j err Hp). split; reflexivity.
Qed.

(** A call for which no cache key is derived proceeds uncached. *)
Lemma extract_uncached_frame ctx aux j :
  (forall a, aux = Some a -> cacheKeyOf j (Token a) = "") ->
  self (extract ctx aux j) = j /\ never isCacheCall (events (extract ctx aux j)).
Proof.
  intros Hkey. destruct aux as [a|]; [|split; reflexivity].
  specialize (Hkey a eq_refl).
  destruct (String.eqb (Token a) "") eqn:Ht.
  - unfold extract. rewrite Ht. split; reflexivity.
  - apply String.eqb_neq in Ht. rewrite (extract_run ctx a j Ht). cbn zeta.
    rewrite Hkey.
    destruct (parseOptions_uncached_frame ctx a j) as [Hs Hn].
    destruct (out (parseOptions ctx a "" j)) as [[opts [err|]]|msg].
    + split; [exact Hs|]. apply never_spanned; auto.
    + destruct (doExtract_uncached_frame ctx a opts (self (parseOptions ctx a "" j)))
        as [Hs2 Hn2].
      split; [cbn [self spanned]; congruence|].
      apply never_spanned; auto. cbn [events]. apply never_app. auto.
    + split; [exact Hs|]. apply never_spanned; auto.
Qed.

End Frames.

(** * The claims *)

(** C7. For an absent request or an empty token string, [extract] returns a
    nil mapping and a nil error, and makes no call at all: the cache, the
    registry and the parser are untouched and the receiver is unchanged. *)
Theorem extract_empty_token `{Collaborators}
    (ctx : Ctx) (keySetId : string) (j : jwtHelper) :
  extract ctx (Some {| Token := ""; KeySetId := keySetId |}) j
    = {| out := Returns (None, None); self := j; events := [] |}
  /\ extract ctx None j
    = {| out := Returns (None, None); self := j; events := [] |}.
Proof. split; reflexivity. Qed.

Lemma newJWTHelper_cache `{Collaborators} (conf : JWTConf) :
  cache (fst (newJWTHelper (Some conf))) =
  if negb (DisableVerification conf) && (0 <? CacheSize conf)
  then Some (mkCache (CacheSize conf)) else None.
Proof.
  unfold newJWTHelper. destruct (DisableVerification conf); [reflexivity|].
  cbn [negb andb]. destruct (fold_left addKeySet (KeySets conf) (∅, None)) as [m jc].
  reflexivity.
Qed.

(** C9. When verification is disabled or the configured cache size is not
    positive, [newJWTHelper] builds a helper without a cache; on such a
    helper no call derives a cache key, probes the cache or writes to it,
    and the helper is the same after the call, so this holds for every
    call. *)
Theorem no_cache_without_verification_or_capacity `{Collaborators}
    (conf : JWTConf) :
  DisableVerification conf = true \/ CacheSize conf <= 0 ->
  let j := fst (newJWTHelper (Some conf)) in
  cache j = None /\
  forall (ctx : Ctx) (aux : option AuxData_JWT),
    (forall a, aux = Some a -> cacheKeyOf j (Token a) = "") /\
    self (extract ctx aux j) = j /\
    never isCacheCall (events (extract ctx aux j)).
Proof.
  intros Hoff j.
  assert (Hc : cache j = None).
  { subst j. rewrite newJWTHelper_cache.
    destruct Hoff as [-> | Hsz]; [reflexivity|].
    destruct (0 <? CacheSize conf) eqn:E; [apply Z.ltb_lt in E; lia|].
    rewrite andb_false_r. reflexivity. }
  split; [exact Hc|]. intros ctx aux.
  assert (Hk : forall a, aux = Some a -> cacheKeyOf j (Token a) = "").
  { intros a _. unfold cacheKeyOf. rewrite Hc. reflexivity. }
  split; [exact Hk|]. apply extract_uncached_frame, Hk.
Qed.

Lemma no_cache_without_verification_or_capacity_witness :
  let j := Demo.helper Demo.parseClock Demo.conf0 in
  cache j = None /\
  never isCacheCall (events (extract (H := Demo.world) tt (Demo.request "h.fresh.sig" "") j)).
Proof.
  intros j.
  destruct (@no_cache_without_verification_or_capacity Demo.world Demo.conf0) as [Hc Hcalls].
  - right. simpl. lia.
  - split; [exact Hc|]. apply (Hcalls tt (Demo.request "h.fresh.sig" "")).
Defined.

(** C4. With a cache configured, the cache key is the suffix of the token
    that starts at its last dot, that is the dot followed by the signature
    segment, and it is derived exactly when the last dot is at an index
    greater than zero; without a cache no key is derived. A call for which
    no key is derived makes no cache call and leaves the helper as it
    was. *)
Theorem cache_key_derivation `{Collaborators}
    (ctx : Ctx) (a : AuxData_JWT) (j : jwtHelper) :
  cacheKeyOf j (Token a) =
    match cache j with
    | Some _ =>
        if 0 <? LastIndexByte (Token a) "."
        then String "." (signatureSegment (Token a)) else ""
    | None => ""
    end
  /\ (cacheKeyOf j (Token a) = "" ->
      self (extract ctx (Some a) j) = j /\
      never isCacheCall (events (extract ctx (Some a) j))).
Proof.
  split.
  - unfold cacheKeyOf, signatureSegment. destruct (cache j); [|reflexivity].
    destruct (0 <? LastIndexByte (Token a) ".") eqn:E; [|reflexivity].
    apply Z.ltb_lt in E. apply slice_at_last_separator. lia.
  - intros Hk. apply extract_uncached_frame. intros a' [= <-]. exact Hk.
Qed.

Lemma cache_key_derivation_witness :
  let j := Demo.helper Demo.parseClock Demo.conf1 in
  cacheKeyOf j "token-without-dots" = "" /\
  self (extract (H := Demo.world) tt (Demo.request "token-without-dots" "") j) = j /\
  never isCacheCall (events (extract (H := Demo.world) tt (Demo.request "token-without-dots" "") j)).
Proof.
  intros j.
  destruct (@cache_key_derivation Demo.world tt
              {| Token := "token-without-dots"; KeySetId := "" |} j) as [Hk Hframe].
  split; [reflexivity|]. apply Hframe. reflexivity.
Defined.

(** The derived key is not the signature segment: it carries the dot, and
    it is derived, and probed with, for a token whose signature segment is
    empty. *)
Lemma cache_key_differs_from_segment :
  let j := Demo.helper Demo.parseClock Demo.conf1 in
  cache j <> None /\
  cacheKeyOf j "h.fresh.sig" <> segmentCacheKey "h.fresh.sig" /\
  segmentCacheKey "h.p." = "" /\
  cacheKeyOf j "h.p." <> "" /\
  existsb (probes ".")
    (events (extract (H := Demo.world) tt (Demo.request "h.p." "") j)) = true.
Proof.
  intros j. repeat split.
  - vm_compute. discriminate.
  - vm_compute. discriminate.
  - vm_compute. discriminate.
Qed.

Lemma notHit_keySets `{Collaborators} j key j' pre :
  notHit j key j' pre -> keySets j' = keySets j.
Proof. intros [?|? ? ? ? ? ?]; reflexivity. Qed.

(** C1. With verification enabled and a probe that did not hit, the keyset
    is chosen as follows. Without a keyset id in the request: when the
    registry holds exactly one keyset, that keyset is the one asked for its
    keys; otherwise the call fails with [errNoKeySetToVerify]. With a
    keyset id: when the id is in the registry, the keyset stored under it is
    asked for its keys; otherwise the call fails with the keyset-not-found
    error. An error of [parseOptions] ends [extract] with that error before
    the parser is called. *)
Theorem keyset_selection `{Collaborators}
    (ctx : Ctx) (a : AuxData_JWT) (j : jwtHelper) (key : string)
    (j' : jwtHelper) (pre : list Event) :
  verify j = true -> notHit j key j' pre ->
  let r := parseOptions ctx a key j in
  (KeySetId a = "" ->
     (size (keySets j) = 1%nat /\
      exists id ks, keySets j = {[id := ks]} /\
        r = {| out := Returns (keySetResult (keySet_keySet ks ctx));
               self := j'; events := (pre ++ [EvKeySet ks])%list |})
     \/
     (size (keySets j) <> 1%nat /\
      r = {| out := Returns ([], Some errNoKeySetToVerify);
             self := j'; events := pre |}))
  /\
  (KeySetId a <> "" ->
     (exists ks, keySets j !! KeySetId a = Some ks /\
        r = {| out := Returns (keySetResult (keySet_keySet ks ctx));
               self := j'; events := (pre ++ [EvKeySet ks])%list |})
     \/
     (keySets j !! KeySetId a = None /\
      r = {| out := Returns ([], Some (errKeySetNotFound (KeySetId a)));
             self := j'; events := pre |}))
  /\
  (Token a <> "" -> key = cacheKeyOf j (Token a) ->
   forall opts e, out r = Returns (opts, Some e) ->
     extract ctx (Some a) j =
       spanned {| out := Returns (None, Some e); self := j'; events := events r |}
     /\ never isParseCall (events (extract ctx (Some a) j))).
Proof.
  intros Hv Hn r. pose proof (notHit_keySets _ _ _ _ Hn) as Hks.
  assert (Hr : r = {| out := out (keySetOptions ctx a j');
                      self := j';
                      events := (pre ++ events (keySetOptions ctx a j'))%list |}).
  { subst r. rewrite (parseOptions_not_hit ctx a key j j' pre Hv Hn).
    f_equal. apply keySetOptions_frame. }
  split; [|split].
  - intros Hid. destruct (decide (size (keySets j) = 1%nat)) as [Hs|Hs].
    + left. split; [exact Hs|].
      destruct (size_one_singleton _ Hs) as (id & ks & Hm).
      exists id, ks. split; [exact Hm|]. rewrite Hr.
      rewrite (keySetOptions_sole ctx a j' id ks Hid) by congruence. reflexivity.
    + right. split; [exact Hs|]. rewrite Hr.
      rewrite (keySetOptions_none_configured ctx a j' Hid) by congruence.
      cbn [out events]. rewrite app_nil_r. reflexivity.
  - intros Hid. destruct (keySets j !! KeySetId a) as [ks|] eqn:Hl.
    + left. exists ks. split; [reflexivity|]. rewrite Hr.
      rewrite (keySetOptions_known_id ctx a j' ks Hid) by congruence. reflexivity.
    + right. split; [reflexivity|]. rewrite Hr.
      rewrite (keySetOptions_unknown_id ctx a j' Hid) by congruence.
      cbn [out events]. rewrite app_nil_r. reflexivity.
  - intros Ht -> opts e Ho.
    assert (Hs : self r = j') by (rewrite Hr; reflexivity).
    assert (He : extract ctx (Some a) j =
                 spanned {| out := Returns (None, Some e); self := j'; events := events r |}).
    { rewrite (extract_run ctx a j Ht). cbn zeta. fold r. rewrite Ho, Hs. reflexivity. }
    split; [exact He|]. rewrite He. apply never_spanned; [reflexivity..|].
    cbn [events]. subst r. apply parseOptions_never; reflexivity.
Qed.

Lemma keyset_selection_witness :
  let j := Demo.helper Demo.parseClock Demo.conf1 in
  let a := {| Token := "h.fresh.sig"; KeySetId := "nope" |} in
  parseOptions (H := Demo.world) tt a ".sig" j =
    {| out := Returns ([], Some (errKeySetNotFound "nope"));
       self := withCache j ∅; events := [EvCacheGet ".sig"; EvCacheMiss] |}
  /\ never isParseCall (events (extract (H := Demo.world) tt (Some a) j)).
Proof.
  intros j a.
  assert (Hn : notHit (H := Demo.world) j ".sig" (withCache j ∅)
                 [EvCacheGet ".sig"; EvCacheMiss]).
  { apply Missed with (c := ∅) (e := errors_New "key not found");
      [discriminate | reflexivity | reflexivity]. }
  destruct (@keyset_selection Demo.world tt a j ".sig" _ _ eq_refl Hn)
    as (_ & Hid & Habort).
  assert (Hrun : parseOptions (H := Demo.world) tt a ".sig" j =
    {| out := Returns ([], Some (errKeySetNotFound "nope"));
       self := withCache j ∅; events := [EvCacheGet ".sig"; EvCacheMiss] |}).
  { destruct Hid as [(ks & Hl & _) | [_ Hr]].
    - discriminate.
    - discriminate Hl.
    - exact Hr. }
  split; [exact Hrun|].
  apply (Habort ltac:(discriminate) eq_refl [] (errKeySetNotFound "nope")).
  rewrite Hrun. reflexivity.
Defined.

(** ** The runs of [parseOptions] and [doExtract], case by case *)

Section Cases.
Context `{Collaborators}.

Lemma warnings_never (kind : Event -> bool) (pairs : list (any * any)) :
  (forall msg p, kind (EvWarn msg p) = false) -> never kind (warningsOf pairs).
Proof.
  intros Hk. unfold never, warningsOf. induction pairs as [|p rest IH]; [reflexivity|].
  cbn [flat_map]. rewrite !forallb_app, IH.
  destruct (snd (assert_string (fst p))), (ToStructPB (snd p));
    cbn; rewrite ?Hk; reflexivity.
Qed.

Lemma doExtract_nil_cache ctx a opts key j token :
  jwt_ParseString (Token a) opts = inl token ->
  key <> "" -> cache j = None ->
  doExtract ctx a opts key j =
  {| out := Panics nilDeref; self := j; events := [EvParse (Token a) opts] |}.
Proof.
  intros Hp Hk Hc. apply String.eqb_neq in Hk.
  unfold doExtract, bind at 1, emit. cbn [out self events].
  rewrite Hp, Hk. cbn [negb]. unfold bind, ret, cache_SetWithExpire, panic.
  rewrite Hc. reflexivity.
Qed.

Lemma doExtract_inv ctx a opts key j :
  doExtractRun ctx a opts key j (doExtract ctx a opts key j).
Proof.
  destruct (jwt_ParseString (Token a) opts) as [token|err] eqn:Hp.
  - destruct (String.eqb key "") eqn:Hk.
    + apply String.eqb_eq in Hk. subst key.
      rewrite (doExtract_uncached ctx a opts j token Hp).
      exact (DxUncached ctx a opts "" j token Hp eq_refl).
    + apply String.eqb_neq in Hk. destruct (cache j) as [c|] eqn:Hc.
      * rewrite (doExtract_cached ctx a opts key j token c Hp Hk Hc).
        exact (DxCached ctx a opts key j token c Hp Hk Hc).
      * rewrite (doExtract_nil_cache ctx a opts key j token Hp Hk Hc).
        exact (DxNilCache ctx a opts key j token Hp Hk Hc).
  - rewrite (doExtract_parse_failed ctx a opts key j err Hp).
    exact (DxFailed ctx a opts key j err Hp).
Qed.

(** [doExtract] starts with the one call to the parser. *)
Lemma doExtract_events ctx a opts key j :
  exists rest,
    events (doExtract ctx a opts key j) = EvParse (Token a) opts :: rest /\
    never isParseCall rest /\ never isKeySetCall rest.
Proof.
  destruct (doExtract_inv ctx a opts key j); cbn [events]; eexists;
    (split; [reflexivity|]); split;
    try reflexivity; try (apply warnings_never; reflexivity);
    apply (never_app _ [_] _); (split; [reflexivity|]);
    apply warnings_never; reflexivity.
Qed.

(** A key derived by [cacheKeyOf] comes with a cache. *)
Lemma cacheKeyOf_cache j token :
  cacheKeyOf j token <> "" -> exists c, cache j = Some c.
Proof.
  unfold cacheKeyOf. destruct (cache j) as [c|]; [eauto|congruence].
Qed.

(** The probe of [parseOptions] hit, or it did not. *)
Lemma probe_cases j key :
  verify j = true -> (key <> "" -> exists c, cache j = Some c) ->
  (exists c', hit j key c') \/ (exists j' pre, notHit j key j' pre).
Proof.
  intros Hv Hc. destruct (String.eqb key "") eqn:Hk.
  - apply String.eqb_eq in Hk. right. exists j, []. now apply NoKey.
  - apply String.eqb_neq in Hk. destruct (Hc Hk) as [c Hcache].
    destruct (gcache_GetIFPresent c key) as [c' [e|]] eqn:Hg.
    + right. eexists _, _. eapply Missed; eauto.
    + left. exists c'. split; [exact Hk|]. eauto.
Qed.

(** The errors the keyset block can return, and what it returns otherwise. *)
Lemma keySetOptions_out ctx a j :
  (exists e, out (keySetOptions ctx a j) = Returns ([], Some e)) \/
  (exists jwks, out (keySetOptions ctx a j) =
                Returns ([WithKeySet jwks; WithValidate true], None)).
Proof.
  destruct (String.eqb (KeySetId a) "") eqn:Hid.
  - apply String.eqb_eq in Hid.
    destruct (decide (size (keySets j) = 1%nat)) as [Hs|Hs].
    + destruct (size_one_singleton _ Hs) as (id & ks & Hm).
      rewrite (keySetOptions_sole ctx a j id ks Hid Hm). cbn [out].
      destruct (keySet_keySet ks ctx) as [jwks [err|]]; cbn; eauto.
    + rewrite (keySetOptions_none_configured ctx a j Hid Hs). cbn; eauto.
  - apply String.eqb_neq in Hid. destruct (keySets j !! KeySetId a) as [ks|] eqn:Hl.
    + rewrite (keySetOptions_known_id ctx a j ks Hid Hl). cbn [out].
      destruct (keySet_keySet ks ctx) as [jwks [err|]]; cbn; eauto.
    + rewrite (keySetOptions_unknown_id ctx a j Hid Hl). cbn; eauto.
Qed.

Lemma In_spanned {A} (r : Run A) (e : Event) :
  In e (events (spanned r)) ->
  e = EvSpanStart "aux_data.ExtractJWT" \/ In e (events r) \/ e = EvSpanEnd.
Proof.
  unfold spanned. cbn [events]. intros [<- | Hin]; [auto|].
  apply in_app_or in Hin. destruct Hin as [Hin | [<- | []]]; auto.
Qed.

Lemma In_spanned_intro {A} (r : Run A) (e : Event) :
  In e (events r) -> In e (events (spanned r)).
Proof.
  intros Hin. unfold spanned. cbn [events]. right. apply in_or_app. auto.
Qed.

End Cases.

(** ** Calls that skip the signature check *)

Section Skipped.
Context `{Collaborators}.

(** On a helper with verification off the probe is not made; on a hit the
    probe and the hit counter precede the parse. *)
Lemma extract_unverified ctx a j :
  Token a <> "" -> verify j = false ->
  extract ctx (Some a) j =
  spanned (after [] (doExtract ctx a skipSignature (cacheKeyOf j (Token a)) j)).
Proof.
  intros Ht Hv. rewrite (extract_run ctx a j Ht). cbn zeta.
  rewrite (parseOptions_unverified ctx a _ j Hv). reflexivity.
Qed.

Lemma extract_hit ctx a j c' :
  Token a <> "" -> verify j = true -> hit j (cacheKeyOf j (Token a)) c' ->
  extract ctx (Some a) j =
  spanned (after [EvCacheGet (cacheKeyOf j (Token a)); EvCacheHit]
             (doExtract ctx a skipSignature (cacheKeyOf j (Token a)) (withCache j c'))).
Proof.
  intros Ht Hv Hh. rewrite (extract_run ctx a j Ht). cbn zeta.
  rewrite (parseOptions_hit ctx a _ j c' Hv Hh). reflexivity.
Qed.

(** What follows for a run that is a parse under [skipSignature] preceded
    by calls that are not parser calls. *)
Lemma skipped_run_facts ctx a key j1 pre
    (r : Run (option (gmap string Value) * option error)) :
  never isParseCall pre ->
  r = spanned (after pre (doExtract ctx a skipSignature key j1)) ->
  In (EvParse (Token a) skipSignature) (events r) /\
  (forall tok opts, In (EvParse tok opts) (events r) ->
     tok = Token a /\ opts = skipSignature) /\
  (forall err, jwt_ParseString (Token a) skipSignature = inr err ->
     out r = Returns (None, Some (errParse err))).
Proof.
  intros Hpre ->.
  destruct (doExtract_events ctx a skipSignature key j1) as (rest & He & Hrest & _).
  split; [|split].
  - apply In_spanned_intro. cbn [after events]. apply in_or_app. right.
    rewrite He. left. reflexivity.
  - intros tok opts Hin. apply In_spanned in Hin.
    destruct Hin as [Hin | [Hin | Hin]]; try discriminate.
    cbn [after events] in Hin. apply in_app_or in Hin. destruct Hin as [Hin | Hin].
    + apply (never_In _ _ _ Hpre) in Hin. discriminate.
    + rewrite He in Hin. destruct Hin as [Hin | Hin].
      * injection Hin as <- <-. split; reflexivity.
      * apply (never_In _ _ _ Hrest) in Hin. discriminate.
  - intros err Hp. cbn [spanned after out].
    rewrite (doExtract_parse_failed ctx a skipSignature key j1 err Hp). reflexivity.
Qed.

End Skipped.

(** C2. On a call that skips the signature check, because verification is
    disabled or because the probe hit, the token is parsed exactly once and
    with the options [WithVerify(false), WithValidate(true)]: validation of
    the time claims stays on. Whenever the parser rejects the token under
    these options the call returns that failure, so with a parser that
    rejects stale tokens under [WithValidate(true)] a stale token fails on
    these paths too. *)
Theorem skipped_signature_still_validates `{Collaborators}
    (ctx : Ctx) (a : AuxData_JWT) (j : jwtHelper) :
  Token a <> "" ->
  verify j = false \/ (exists c', hit j (cacheKeyOf j (Token a)) c') ->
  let r := extract ctx (Some a) j in
  In (EvParse (Token a) [WithVerify false; WithValidate true]) (events r) /\
  (forall tok opts, In (EvParse tok opts) (events r) ->
     tok = Token a /\ opts = [WithVerify false; WithValidate true]) /\
  (forall err,
     jwt_ParseString (Token a) [WithVerify false; WithValidate true] = inr err ->
     out r = Returns (None, Some (errParse err))) /\
  (forall stale : string -> Prop,
     (forall s opts, In (WithValidate true) opts -> stale s ->
        exists err, jwt_ParseString s opts = inr err) ->
     stale (Token a) ->
     exists err, out r = Returns (None, Some (errParse err))).
Proof.
  intros Ht Hskip r.
  assert (Hfacts :
    In (EvParse (Token a) skipSignature) (events r) /\
    (forall tok opts, In (EvParse tok opts) (events r) ->
       tok = Token a /\ opts = skipSignature) /\
    (forall err, jwt_ParseString (Token a) skipSignature = inr err ->
       out r = Returns (None, Some (errParse err)))).
  { destruct (verify j) eqn:Hv.
    - destruct Hskip as [Hf | [c' Hh]]; [discriminate|].
      apply (skipped_run_facts ctx a (cacheKeyOf j (Token a)) (withCache j c')
               [EvCacheGet (cacheKeyOf j (Token a)); EvCacheHit]);
        [reflexivity|]. apply extract_hit; assumption.
    - apply (skipped_run_facts ctx a (cacheKeyOf j (Token a)) j []); [reflexivity|].
      apply extract_unverified; assumption. }
  destruct Hfacts as (Hin & Honly & Hfail).
  split; [exact Hin|]. split; [exact Honly|]. split; [exact Hfail|].
  intros stale Hcontract Hstale.
  destruct (Hcontract (Token a) skipSignature) as [err Herr];
    [right; left; reflexivity | exact Hstale |].
  exists err. apply Hfail, Herr.
Qed.

(** The demo parser rejects an expired token whenever validation is on. *)
Lemma demo_parse_rejects_stale (s : string) (opts : list (ParseOption string)) :
  In (WithValidate true) opts -> s = "h.stale.sig" ->
  exists err, Demo.parse s opts = inr err.
Proof.
  intros Hin ->. unfold Demo.parse. cbn [Demo.decode String.eqb Ascii.eqb Bool.eqb].
  destruct (negb (Demo.skipsVerify opts) && negb (Demo.hasKey "K" opts)); [eauto|].
  assert (Hw : Demo.wantsValidate opts = true).
  { unfold Demo.wantsValidate. apply existsb_exists.
    exists (WithValidate true). split; [exact Hin|reflexivity]. }
  rewrite Hw. cbn. eauto.
Qed.

Lemma skipped_signature_still_validates_witness :
  let j0 := Demo.helper Demo.parseClock Demo.conf1 in
  let j := self (extract (H := Demo.world) tt (Demo.request "h.fresh.sig" "") j0) in
  exists err,
    out (extract (H := Demo.world) tt (Demo.request "h.stale.sig" "") j)
    = Returns (None, Some (errParse err)).
Proof.
  intros j0 j.
  assert (Hh : exists c', hit (H := Demo.world) j
                 (cacheKeyOf j (Token {| Token := "h.stale.sig"; KeySetId := "" |})) c').
  { exists (<[".sig" := 300 * Second]> ∅). split.
    - vm_compute. discriminate.
    - exists (<[".sig" := 300 * Second]> ∅). split; vm_compute; reflexivity. }
  destruct (@skipped_signature_still_validates Demo.world tt
              {| Token := "h.stale.sig"; KeySetId := "" |} j
              ltac:(discriminate) (or_intror Hh)) as (_ & _ & _ & Hstale).
  apply (Hstale (fun s => s = "h.stale.sig") demo_parse_rejects_stale eq_refl).
Defined.

(** C10. On a hit the keyset block is not run: the call is the probe, the
    hit counter and the parse under [skipSignature], no keyset is asked for
    its keys, and the call returns the claims whenever the parser accepts
    the token, whatever keyset id the request carries. A call that returns
    [errNoKeySetToVerify] or the keyset-not-found error ran on a helper
    with verification enabled whose probe did not hit. *)
Theorem cache_hit_skips_keyset_resolution `{Collaborators}
    (ctx : Ctx) (a : AuxData_JWT) (j : jwtHelper) :
  Token a <> "" ->
  let key := cacheKeyOf j (Token a) in
  let r := extract ctx (Some a) j in
  (forall c', verify j = true -> hit j key c' ->
     r = spanned (after [EvCacheGet key; EvCacheHit]
                    (doExtract ctx a skipSignature key (withCache j c'))) /\
     never isKeySetCall (events r) /\
     (forall token, jwt_ParseString (Token a) skipSignature = inl token ->
        out r = Returns (Some (claimsOf (tokPairs token) ∅), None)))
  /\
  (forall res e, out r = Returns (res, Some e) ->
     e = errNoKeySetToVerify \/ e = errKeySetNotFound (KeySetId a) ->
     verify j = true /\ exists j' pre, notHit j key j' pre).
Proof.
  intros Ht key r. split.
  - intros c' Hv Hh.
    assert (Hr : r = spanned (after [EvCacheGet key; EvCacheHit]
                    (doExtract ctx a skipSignature key (withCache j c'))))
      by (apply extract_hit; assumption).
    split; [exact Hr|]. split.
    + rewrite Hr. apply never_spanned; [reflexivity..|]. cbn [after events].
      destruct (doExtract_events ctx a skipSignature key (withCache j c'))
        as (rest & -> & _ & Hks).
      apply (never_app _ [_; _] (_ :: _)). split; [reflexivity|].
      apply (never_app _ [_] rest). split; [reflexivity|exact Hks].
    + intros token Hp. rewrite Hr. cbn [spanned after out].
      destruct Hh as (Hk & _).
      rewrite (doExtract_cached ctx a skipSignature key (withCache j c') token c' Hp Hk eq_refl).
      reflexivity.
  - intros res e Ho He.
    assert (Hne : forall err, e <> errParse err)
      by (intros err; destruct He as [-> | ->]; discriminate).
    assert (Hdx : forall opts j1 res',
              out (doExtract ctx a opts key j1) = Returns (res', Some e) -> False).
    { intros opts j1 res' Hd.
      destruct (doExtract_inv ctx a opts key j1); cbn [out] in Hd; try discriminate.
      injection Hd as _ <-. eapply Hne; reflexivity. }
    destruct (verify j) eqn:Hv.
    + split; [reflexivity|].
      destruct (probe_cases j key Hv (cacheKeyOf_cache j (Token a))) as [[c' Hh] | Hn];
        [|exact Hn].
      exfalso. subst r. rewrite (extract_hit ctx a j c' Ht Hv Hh) in Ho.
      cbn [spanned after out] in Ho. eapply Hdx, Ho.
    + exfalso. subst r. rewrite (extract_unverified ctx a j Ht Hv) in Ho.
      cbn [spanned after out] in Ho. eapply Hdx, Ho.
Qed.

Lemma cache_hit_skips_keyset_resolution_witness :
  let j0 := Demo.helper Demo.parseClock Demo.conf1 in
  let j := self (extract (H := Demo.world) tt (Demo.request "h.fresh.sig" "") j0) in
  Demo.configured j "nope" = false /\
  out (extract (H := Demo.world) tt (Demo.request "h.fresh.sig" "nope") j)
  = Returns (Some (claimsOf (H := Demo.world) [(AnyString "sub", AnyString "u1")] ∅), None).
Proof.
  intros j0 j. split; [vm_compute; reflexivity|].
  destruct (@cache_hit_skips_keyset_resolution Demo.world tt
              {| Token := "h.fresh.sig"; KeySetId := "nope" |} j
              ltac:(discriminate)) as [Hhit _].
  destruct (Hhit (<[".sig" := 300 * Second]> ∅)) as (_ & _ & Hout).
  - vm_compute. reflexivity.
  - split.
    + vm_compute. discriminate.
    + exists (<[".sig" := 300 * Second]> ∅). split; vm_compute; reflexivity.
  - apply (Hout {| tokExp := Some (Demo.parseClock + 300 * Second);
                   tokPairs := [(AnyString "sub", AnyString "u1")] |}).
    vm_compute. reflexivity.
Defined.

(** ** The whole call, case by case *)

(** After [parseOptions], which never parses and never writes to the
    cache, the call ends with its error, goes on to [doExtract], or
    panics. *)
Lemma extract_cases `{Collaborators} ctx a j :
  Token a <> "" ->
  let key := cacheKeyOf j (Token a) in
  let r1 := parseOptions ctx a key j in
  never isParseCall (events r1) /\ never isCacheSet (events r1) /\
  ((exists opts e, out r1 = Returns (opts, Some e) /\
      extract ctx (Some a) j =
      spanned {| out := Returns (None, Some e); self := self r1; events := events r1 |})
   \/
   (exists opts, out r1 = Returns (opts, None) /\
      extract ctx (Some a) j =
      spanned (after (events r1) (doExtract ctx a opts key (self r1))))
   \/
   (exists msg,
      extract ctx (Some a) j =
      spanned {| out := Panics msg; self := self r1; events := events r1 |})).
Proof.
  intros Ht key r1.
  split; [apply parseOptions_never; reflexivity|].
  split; [apply parseOptions_never; reflexivity|].
  rewrite (extract_run ctx a j Ht). cbn zeta. fold key. fold r1.
  destruct (out r1) as [[opts [e|]]|msg]; eauto 6.
Qed.

(** C6. When the parser rejects the token, [doExtract] returns a nil
    mapping with the wrapped error right after the parser call and leaves
    the helper as it was.  So does the whole call: once [parseOptions] has
    returned options under which the parser rejects the token, [extract]
    returns the nil mapping with that error, the parser call is the last
    call made and the cache is not written to.  This is so on each of the
    three ways to the parser: with verification off, after a cache hit,
    and with the options of the selected keyset after a probe that did
    not hit.  Conversely, a call of [extract] during which the parser
    rejects the token returns that error and never writes to the cache;
    and whenever [extract] returns an error the mapping is nil and the
    cache was not written to. *)
Theorem failed_parse_returns_nothing `{Collaborators}
    (ctx : Ctx) (a : AuxData_JWT) (j : jwtHelper) :
  let key := cacheKeyOf j (Token a) in
  let r := extract ctx (Some a) j in
  let rejected (err : error) (j1 : jwtHelper) (pre : list Event)
               (opts : list (ParseOption jwkSet)) :=
    spanned {| out := Returns (None, Some (errParse err)); self := j1;
               events := (pre ++ [EvParse (Token a) opts])%list |} in
  (forall opts key j1 err,
     jwt_ParseString (Token a) opts = inr err ->
     doExtract ctx a opts key j1 =
     {| out := Returns (None, Some (errParse err)); self := j1;
        events := [EvParse (Token a) opts] |})
  /\
  (Token a <> "" ->
   forall opts err,
     out (parseOptions ctx a key j) = Returns (opts, None) ->
     jwt_ParseString (Token a) opts = inr err ->
     r = rejected err (self (parseOptions ctx a key j))
                  (events (parseOptions ctx a key j)) opts /\
     never isCacheSet (events r))
  /\
  (Token a <> "" -> verify j = false ->
   forall err,
     jwt_ParseString (Token a) skipSignature = inr err ->
     r = rejected err j [] skipSignature)
  /\
  (Token a <> "" -> verify j = true ->
   forall c' err,
     hit j key c' ->
     jwt_ParseString (Token a) skipSignature = inr err ->
     r = rejected err (withCache j c') [EvCacheGet key; EvCacheHit] skipSignature)
  /\
  (Token a <> "" -> verify j = true ->
   forall j' pre ks jwks err,
     notHit j key j' pre -> selected a j ks ->
     keySet_keySet ks ctx = (jwks, None) ->
     jwt_ParseString (Token a) [WithKeySet jwks; WithValidate true] = inr err ->
     r = rejected err j' (pre ++ [EvKeySet ks])%list
                  [WithKeySet jwks; WithValidate true])
  /\
  (forall tok opts err,
     In (EvParse tok opts) (events r) -> jwt_ParseString tok opts = inr err ->
     out r = Returns (None, Some (errParse err)) /\ never isCacheSet (events r))
  /\
  (forall res e,
     out r = Returns (res, Some e) -> res = None /\ never isCacheSet (events r)).
Proof.
  intros key r rejected.
  assert (Hgen : Token a <> "" ->
    forall opts err,
      out (parseOptions ctx a key j) = Returns (opts, None) ->
      jwt_ParseString (Token a) opts = inr err ->
      r = rejected err (self (parseOptions ctx a key j))
                   (events (parseOptions ctx a key j)) opts /\
      never isCacheSet (events r)).
  { intros Ht opts err Ho Hp.
    assert (Hr : r = rejected err (self (parseOptions ctx a key j))
                       (events (parseOptions ctx a key j)) opts).
    { subst r rejected. rewrite (extract_run ctx a j Ht). cbn zeta. fold key.
      rewrite Ho. rewrite (doExtract_parse_failed ctx a opts key _ err Hp).
      reflexivity. }
    split; [exact Hr|]. rewrite Hr. subst rejected.
    apply never_spanned; [reflexivity..|]. cbn [events].
    apply never_app. split; [|reflexivity].
    apply parseOptions_never; reflexivity. }
  split; [|split; [|split; [|split; [|split; [|split]]]]].
  - intros opts key1 j1 err Hp. apply doExtract_parse_failed, Hp.
  - exact Hgen.
  - intros Ht Hv err Hp.
    destruct (Hgen Ht skipSignature err) as [Hr _]; [|exact Hp|].
    + fold key. rewrite (parseOptions_unverified ctx a key j Hv). reflexivity.
    + rewrite Hr. rewrite (parseOptions_unverified ctx a key j Hv). reflexivity.
  - intros Ht Hv c' err Hh Hp.
    destruct (Hgen Ht skipSignature err) as [Hr _]; [|exact Hp|].
    + rewrite (parseOptions_hit ctx a key j c' Hv Hh). reflexivity.
    + rewrite Hr. rewrite (parseOptions_hit ctx a key j c' Hv Hh). reflexivity.
  - intros Ht Hv j' pre ks jwks err Hn Hsel Hks Hp.
    assert (Hsame : keySets j' = keySets j)
      by (destruct Hn; reflexivity).
    assert (Hko : keySetOptions ctx a j' =
                  {| out := Returns ([WithKeySet jwks; WithValidate true], None);
                     self := j'; events := [EvKeySet ks] |}).
    { destruct Hsel as [(Hid & id & Hm) | (Hid & Hl)].
      - rewrite (keySetOptions_sole ctx a j' id ks Hid); [|congruence].
        rewrite Hks. reflexivity.
      - rewrite (keySetOptions_known_id ctx a j' ks Hid); [|congruence].
        rewrite Hks. reflexivity. }
    assert (Hpo : parseOptions ctx a key j =
                  {| out := Returns ([WithKeySet jwks; WithValidate true], None);
                     self := j'; events := (pre ++ [EvKeySet ks])%list |}).
    { rewrite (parseOptions_not_hit ctx a key j j' pre Hv Hn), Hko. reflexivity. }
    destruct (Hgen Ht [WithKeySet jwks; WithValidate true] err) as [Hr _];
      [|exact Hp|].
    + rewrite Hpo. reflexivity.
    + rewrite Hr, Hpo. reflexivity.
  - intros tok opts err Hin Hp.
    destruct (String.eqb (Token a) "") eqn:Ht.
    { subst r. unfold extract in Hin. rewrite Ht in Hin. destruct Hin. }
    apply String.eqb_neq in Ht.
    destruct (extract_cases ctx a j Ht) as (Hnp & Hns & Hcases). subst r.
    destruct Hcases as [(o & e & _ & Hr) | [(o & _ & Hr) | (msg & Hr)]];
      rewrite Hr in Hin |- *;
      apply In_spanned in Hin; destruct Hin as [Hin | [Hin | Hin]]; try discriminate;
      cbn [events after] in Hin.
    + apply (never_In _ _ _ Hnp) in Hin. discriminate.
    + apply in_app_or in Hin. destruct Hin as [Hin | Hin];
        [apply (never_In _ _ _ Hnp) in Hin; discriminate|].
      destruct (doExtract_events ctx a o (cacheKeyOf j (Token a))
                  (self (parseOptions ctx a (cacheKeyOf j (Token a)) j)))
        as (rest & He & Hrest & _).
      rewrite He in Hin. destruct Hin as [Hin | Hin];
        [|apply (never_In _ _ _ Hrest) in Hin; discriminate].
      injection Hin as <- <-.
      rewrite (doExtract_parse_failed ctx a o _ _ err Hp).
      split; [reflexivity|]. apply never_spanned; [reflexivity..|].
      cbn [after events]. apply never_app. split; [exact Hns|reflexivity].
    + apply (never_In _ _ _ Hnp) in Hin. discriminate.
  - intros res e Ho.
    destruct (String.eqb (Token a) "") eqn:Ht.
    { subst r. unfold extract in Ho. rewrite Ht in Ho. discriminate. }
    apply String.eqb_neq in Ht.
    destruct (extract_cases ctx a j Ht) as (Hnp & Hns & Hcases). subst r.
    destruct Hcases as [(o & e' & _ & Hr) | [(o & _ & Hr) | (msg & Hr)]];
      rewrite Hr in Ho |- *; cbn [spanned after out] in Ho.
    + injection Ho as <- _. split; [reflexivity|].
      apply never_spanned; [reflexivity..|exact Hns].
    + destruct (doExtract_inv ctx a o (cacheKeyOf j (Token a))
                  (self (parseOptions ctx a (cacheKeyOf j (Token a)) j)));
        cbn [out] in Ho; try discriminate.
      injection Ho as <- _. split; [reflexivity|].
      apply never_spanned; [reflexivity..|].
      cbn [after events]. apply never_app. split; [exact Hns|reflexivity].
    + discriminate.
Qed.

(** The demo's second call presents a token that has expired and ends in
    the signature segment of the one verified before: the probe hits, the
    parser rejects the token, and the call returns the error. *)
Lemma failed_parse_returns_nothing_witness :
  let j0 := Demo.helper Demo.parseClock Demo.conf1 in
  let j := self (extract (H := Demo.world) tt (Demo.request "h.fresh.sig" "") j0) in
  out (extract (H := Demo.world) tt (Demo.request "h.stale.sig" "") j)
  = Returns (None, Some (errParse (errors_New "exp not satisfied"))).
Proof.
  intros j0 j.
  destruct (@failed_parse_returns_nothing Demo.world tt
              {| Token := "h.stale.sig"; KeySetId := "" |} j)
    as (_ & _ & _ & Hhit & _).
  refine (eq_trans (f_equal out
            (Hhit _ _ (<[".sig" := 300 * Second]> ∅)
                  (errors_New "exp not satisfied") _ _)) eq_refl).
  - discriminate.
  - vm_compute. reflexivity.
  - split.
    + vm_compute. discriminate.
    + exists (<[".sig" := 300 * Second]> ∅). split; vm_compute; reflexivity.
  - vm_compute. reflexivity.
Defined.

(** ** The time-to-live of a cache entry *)

(** The arithmetic of lines 159-162. *)
Lemma cacheExpiryFor_spec `{Collaborators} (token : jwtToken) :
  match tokExp token with
  | Some e =>
      if time_Now <? e
      then cacheExpiryFor token = Z.min (e - time_Now) maxDuration /\
           cacheExpiryFor token <= e - time_Now
      else cacheExpiryFor token = defaultCacheExpiry
  | None => zeroTime <= time_Now -> cacheExpiryFor token = defaultCacheExpiry
  end.
Proof.
  unfold cacheExpiryFor, time_Until, time_Sub, Expiration.
  assert (Hmin : minDuration = - 9223372036854775808) by reflexivity.
  assert (Hmax : maxDuration = 9223372036854775807) by reflexivity.
  destruct (tokExp token) as [e|].
  - destruct (time_Now <? e) eqn:E.
    + apply Z.ltb_lt in E.
      destruct (e - time_Now <? minDuration) eqn:E1; [apply Z.ltb_lt in E1; lia|].
      destruct (maxDuration <? e - time_Now) eqn:E2.
      * apply Z.ltb_lt in E2. rewrite Hmax. cbn. lia.
      * apply Z.ltb_ge in E2.
        destruct (0 <? e - time_Now) eqn:E3; [|apply Z.ltb_ge in E3; lia]. lia.
    + apply Z.ltb_ge in E.
      destruct (e - time_Now <? minDuration) eqn:E1; [rewrite Hmin; reflexivity|].
      destruct (maxDuration <? e - time_Now) eqn:E2; [apply Z.ltb_lt in E2; lia|].
      destruct (0 <? e - time_Now) eqn:E3; [apply Z.ltb_lt in E3; lia|reflexivity].
  - intros Hnow.
    destruct (zeroTime - time_Now <? minDuration) eqn:E1; [rewrite Hmin; reflexivity|].
    destruct (maxDuration <? zeroTime - time_Now) eqn:E2; [apply Z.ltb_lt in E2; lia|].
    destruct (0 <? zeroTime - time_Now) eqn:E3; [apply Z.ltb_lt in E3; lia|reflexivity].
Qed.

(** C5. A call that returns claims and for which a cache key was derived
    writes that key to the cache exactly once, with this time-to-live: when
    the token's expiry is after now, the time left until the expiry (capped
    at the largest duration), which never exceeds the remaining validity of
    the token; when the expiry is not after now, or the token carries no
    expiry, the default of ten minutes. *)
Theorem cache_ttl `{Collaborators}
    (ctx : Ctx) (a : AuxData_JWT) (j : jwtHelper) (res : gmap string Value) :
  let key := cacheKeyOf j (Token a) in
  let r := extract ctx (Some a) j in
  out r = Returns (Some res, None) -> key <> "" ->
  exists opts token,
    jwt_ParseString (Token a) opts = inl token /\
    In (EvCacheSet key (cacheExpiryFor token)) (events r) /\
    (forall k ttl, In (EvCacheSet k ttl) (events r) ->
       k = key /\ ttl = cacheExpiryFor token) /\
    match tokExp token with
    | Some e =>
        if time_Now <? e
        then cacheExpiryFor token = Z.min (e - time_Now) maxDuration /\
             cacheExpiryFor token <= e - time_Now
        else cacheExpiryFor token = defaultCacheExpiry
    | None => zeroTime <= time_Now -> cacheExpiryFor token = defaultCacheExpiry
    end.
Proof.
  intros key r Ho Hk.
  destruct (String.eqb (Token a) "") eqn:Ht.
  { subst r. unfold extract in Ho. rewrite Ht in Ho. discriminate. }
  apply String.eqb_neq in Ht.
  destruct (extract_cases ctx a j Ht) as (_ & Hns & Hcases). fold key in Hns, Hcases.
  subst r.
  destruct Hcases as [(o & e' & _ & Hr) | [(o & _ & Hr) | (msg & Hr)]];
    rewrite Hr in Ho |- *; cbn [spanned after out] in Ho; try discriminate.
  set (j1 := self (parseOptions ctx a key j)) in *.
  set (es1 := events (parseOptions ctx a key j)) in *.
  destruct (doExtract_inv ctx a o key j1) as [err Hp | token Hp Hk0 | token c Hp _ Hc | token Hp _ Hc];
    cbn [out] in Ho; try discriminate; [contradiction|].
  exists o, token. split; [exact Hp|]. split; [|split].
  - apply In_spanned_intro. cbn [after events]. apply in_or_app. right.
    right. left. reflexivity.
  - intros k ttl Hin. apply In_spanned in Hin.
    destruct Hin as [Hin | [Hin | Hin]]; try discriminate.
    cbn [after events] in Hin. apply in_app_or in Hin. destruct Hin as [Hin | Hin].
    + apply (never_In _ _ _ Hns) in Hin. discriminate.
    + destruct Hin as [Hin | [Hin | Hin]]; try discriminate.
      * injection Hin as <- <-. split; reflexivity.
      * apply (never_In isCacheSet) in Hin; [discriminate|].
        apply warnings_never. reflexivity.
  - apply cacheExpiryFor_spec.
Qed.

Lemma cache_ttl_witness :
  let j := Demo.helper Demo.parseClock Demo.conf1 in
  let r := extract (H := Demo.world) tt (Demo.request "h.fresh.sig" "") j in
  exists opts token,
    jwt_ParseString (Collaborators := Demo.world) "h.fresh.sig" opts = inl token /\
    In (EvCacheSet (cacheKeyOf j "h.fresh.sig") (cacheExpiryFor (H := Demo.world) token))
       (events r).
Proof.
  intros j r.
  destruct (@cache_ttl Demo.world tt {| Token := "h.fresh.sig"; KeySetId := "" |} j
              (claimsOf (H := Demo.world) [(AnyString "sub", AnyString "u1")] ∅))
    as (opts & token & Hp & Hin & _).
  - vm_compute. reflexivity.
  - vm_compute. discriminate.
  - exists opts, token. split; [exact Hp|exact Hin].
Defined.

(** A token accepted by the parser one nanosecond before its expiry, with
    the cache write two nanoseconds later: the entry is stored for the ten
    minutes of the default, not for the zero the remaining validity gives,
    and outlives the token. *)
Lemma cache_ttl_of_expired_token_is_default :
  let now := Demo.parseClock + 2 in
  let j := Demo.helper now Demo.conf1 in
  let r := extract (H := Demo.at_time now) tt (Demo.request "h.edge.sig" "") j in
  let token := {| tokExp := Some (Demo.parseClock + 1);
                  tokPairs := [(AnyString "sub", AnyString "u1")] |} in
  jwt_ParseString (Collaborators := Demo.at_time now) "h.edge.sig"
    [WithKeySet (Some "K"); WithValidate true] = inl token /\
  out r = Returns (Some (claimsOf (H := Demo.at_time now) (tokPairs token) ∅), None) /\
  cacheKeyOf j "h.edge.sig" = ".sig" /\
  existsb (writes ".sig" defaultCacheExpiry) (events r) = true /\
  remainingOrDefault (H := Demo.at_time now) token = 0 /\
  existsb (writes ".sig" (remainingOrDefault (H := Demo.at_time now) token)) (events r)
    = false /\
  Demo.parseClock + 1 - now < defaultCacheExpiry.
Proof.
  intros now j r token. repeat split; vm_compute; reflexivity.
Qed.

(** ** Local keysets *)

(** C8. [newLocalKeySet] never fails and never returns nil: a failure to
    decode the inline data, to parse the decoded bytes, or to read the
    keyset file is kept in the function it returns.  The file is read
    once, at construction: every later call of [keySet] on the result,
    whatever the context and whatever the disk holds by then, returns the
    same pair, the one a call right after construction returns.  It is
    the stored error, wrapped the same way, when construction failed, and
    the key material parsed at construction otherwise. *)
Theorem local_keyset_replays_construction `{Collaborators} (src : LocalSource) :
  let built := newLocalKeySet src in
  (exists f, built = Some f) /\
  (forall later1 later2 ctx1 ctx2,
     keySetLater later1 built ctx1 = keySetLater later2 built ctx2) /\
  (forall later ctx,
     keySetLater later built ctx = keySet_keySet (LocalKS built) ctx) /\
  (forall later ctx,
     let resolved := keySetLater later built ctx in
     (Data src <> "" -> forall err,
        base64_DecodeString (Data src) = inr err ->
        resolved = (None, Some (fmt_Errorf_w
          "[ERR-261] failed to apply base64 decoder to key data: %w" err))) /\
     (Data src <> "" -> forall kbytes err,
        base64_DecodeString (Data src) = inl kbytes ->
        jwk_Parse kbytes (PEM src) = inr err ->
        resolved = (None, Some (fmt_Errorf_w
          "[ERR-262] failed to parse key data: %w" err))) /\
     (Data src <> "" -> forall kbytes ks,
        base64_DecodeString (Data src) = inl kbytes ->
        jwk_Parse kbytes (PEM src) = inl ks ->
        resolved = (Some ks, None)) /\
     (Data src = "" -> forall err,
        jwk_ReadFile (File src) (PEM src) = inr err ->
        resolved = (None, Some (fmt_Errorf_sw
          "[ERR-263] failed to read keyset from '%s': %w" (File src) err))) /\
     (Data src = "" -> forall ks,
        jwk_ReadFile (File src) (PEM src) = inl ks ->
        resolved = (Some ks, None))).
Proof.
  intros built.
  assert (Hshape : exists pair, built = Some (fun _ _ => pair)).
  { subst built. unfold newLocalKeySet.
    destruct (negb (String.eqb (Data src) "")).
    - destruct (base64_DecodeString (Data src)) as [kbytes|err]; [|eauto].
      destruct (jwk_Parse kbytes (PEM src)); eauto.
    - destruct (jwk_ReadFile (File src) (PEM src)); eauto. }
  split; [|split; [|split]].
  - destruct Hshape as [pair Hb]. eauto.
  - destruct Hshape as [pair Hb]. clearbody built. subst built. reflexivity.
  - destruct Hshape as [pair Hb]. clearbody built. subst built. reflexivity.
  - intros later ctx resolved. subst resolved built.
    unfold keySetLater, keySet_keySet, localKeySet_keySet, newLocalKeySet.
    repeat split.
    + intros Hd err Hb. apply String.eqb_neq in Hd. rewrite Hd, Hb. reflexivity.
    + intros Hd kbytes err Hb Hp. apply String.eqb_neq in Hd.
      rewrite Hd, Hb, Hp. reflexivity.
    + intros Hd kbytes ks Hb Hp. apply String.eqb_neq in Hd.
      rewrite Hd, Hb, Hp. reflexivity.
    + intros Hd err Hf. rewrite Hd, Hf. reflexivity.
    + intros Hd ks Hf. rewrite Hd, Hf. reflexivity.
Qed.

(** The key file of the demo is there when the keyset is built and gone
    at the time of the call: the call returns the key read at
    construction.  A file that is missing at construction and there at
    the time of the call leaves the keyset failing. *)
Lemma local_keyset_replays_construction_witness :
  let gone : Files (H := Demo.world) :=
    fun _ _ => inr (errors_New "no such file") in
  let there : Files (H := Demo.world) := fun _ _ => inl "K2" in
  keySetLater (H := Demo.world) gone
    (newLocalKeySet (H := Demo.world)
       {| Data := ""; File := "keys.jwk"; PEM := false |}) tt
  = (Some "K", None) /\
  keySetLater (H := Demo.world) there
    (newLocalKeySet (H := Demo.world)
       {| Data := ""; File := "other.jwk"; PEM := false |}) tt
  = (None, Some (fmt_Errorf_sw "[ERR-263] failed to read keyset from '%s': %w"
                   "other.jwk" (errors_New "no such file"))).
Proof.
  intros gone there. split.
  - destruct (@local_keyset_replays_construction Demo.world
                {| Data := ""; File := "keys.jwk"; PEM := false |})
      as (_ & _ & _ & Hcases).
    destruct (Hcases gone tt) as (_ & _ & _ & _ & Hread).
    apply Hread; reflexivity.
  - destruct (@local_keyset_replays_construction Demo.world
                {| Data := ""; File := "other.jwk"; PEM := false |})
      as (_ & _ & _ & Hcases).
    destruct (Hcases there tt) as (_ & _ & _ & Hfail & _).
    apply Hfail; reflexivity.
Defined.

(** * Further properties of the JWT helper *)

Section Totality.
Context `{Collaborators}.

Lemma sameButCacheState_refl j : sameButCacheState j j.
Proof. repeat split; auto. Qed.

Lemma sameButCacheState_withCache j c c' :
  cache j = Some c -> sameButCacheState j (withCache j c').
Proof. intros Hc. repeat split; cbn; intros E; congruence. Qed.

Lemma sameButCacheState_trans j1 j2 j3 :
  sameButCacheState j1 j2 -> sameButCacheState j2 j3 -> sameButCacheState j1 j3.
Proof.
  intros (K1 & V1 & C1) (K2 & V2 & C2). repeat split; try congruence.
  - intros E. apply C2, C1, E.
  - intros E. apply C1, C2, E.
Qed.

Lemma notHit_sameButCacheState j key j' pre :
  notHit j key j' pre -> sameButCacheState j j'.
Proof.
  intros [Hk | c c' e Hk Hc Hg]; [apply sameButCacheState_refl|].
  eapply sameButCacheState_withCache, Hc.
Qed.

(** [parseOptions] returns, and changes at most the state of the cache,
    whenever a key to probe with comes with a cache. *)
Lemma parseOptions_returns ctx a key j :
  (key <> "" -> exists c, cache j = Some c) ->
  (exists res, out (parseOptions ctx a key j) = Returns res) /\
  sameButCacheState j (self (parseOptions ctx a key j)).
Proof.
  intros Hc. destruct (verify j) eqn:Hv.
  - destruct (probe_cases j key Hv Hc) as [[c' Hh] | (j' & pre & Hn)].
    + rewrite (parseOptions_hit ctx a key j c' Hv Hh). cbn [out self].
      split; [eauto|]. destruct Hh as (_ & c & Hcache & _).
      eapply sameButCacheState_withCache, Hcache.
    + rewrite (parseOptions_not_hit ctx a key j j' pre Hv Hn). cbn [out self].
      split.
      * destruct (keySetOptions_out ctx a j') as [[e ->] | [jwks ->]]; eauto.
      * destruct (keySetOptions_frame ctx a j') as [-> _].
        eapply notHit_sameButCacheState, Hn.
  - rewrite (parseOptions_unverified ctx a key j Hv). cbn [out self].
    split; [eauto|apply sameButCacheState_refl].
Qed.

(** [doExtract] returns, and changes at most the state of the cache, under
    the same condition. *)
Lemma doExtract_returns ctx a opts key j :
  (key <> "" -> exists c, cache j = Some c) ->
  (exists res, out (doExtract ctx a opts key j) = Returns res) /\
  sameButCacheState j (self (doExtract ctx a opts key j)).
Proof.
  intros Hc.
  destruct (doExtract_inv ctx a opts key j)
    as [err Hp | token Hp Hk | token c Hp Hk Hcache | token Hp Hk Hnil]; cbn [out self].
  - split; [eauto|apply sameButCacheState_refl].
  - split; [eauto|apply sameButCacheState_refl].
  - split; [eauto|]. eapply sameButCacheState_withCache, Hcache.
  - destruct (Hc Hk) as [c Hcache]. congruence.
Qed.

Lemma extract_returns ctx aux j :
  (exists res, out (extract ctx aux j) = Returns res) /\
  sameButCacheState j (self (extract ctx aux j)).
Proof.
  destruct aux as [a|]; [|split; [cbn; eauto|apply sameButCacheState_refl]].
  destruct (String.eqb (Token a) "") eqn:Ht.
  { unfold extract. rewrite Ht. split; [cbn; eauto|apply sameButCacheState_refl]. }
  apply String.eqb_neq in Ht.
  pose proof (cacheKeyOf_cache j (Token a)) as Hc.
  destruct (parseOptions_returns ctx a (cacheKeyOf j (Token a)) j Hc) as ([res1 Ho1] & Hs1).
  rewrite (extract_run ctx a j Ht). cbn zeta. rewrite Ho1.
  destruct res1 as [opts [e|]]; cbn [spanned out self].
  - split; [eauto|exact Hs1].
  - set (j1 := self (parseOptions ctx a (cacheKeyOf j (Token a)) j)) in *.
    assert (Hc1 : cacheKeyOf j (Token a) <> "" -> exists c, cache j1 = Some c).
    { intros Hk. destruct (Hc Hk) as [c Hcache].
      destruct Hs1 as (_ & _ & Hnone).
      destruct (cache j1) as [c1|] eqn:E; [eauto|].
      assert (cache j = None) by (apply Hnone; reflexivity). congruence. }
    destruct (doExtract_returns ctx a opts (cacheKeyOf j (Token a)) j1 Hc1) as (Hret & Hs2).
    split; [exact Hret|]. eapply sameButCacheState_trans; eassumption.
Qed.

End Totality.

(** X1. [extract] always returns: on no helper and for no request does it
    dereference a nil cache or call a nil keyset. A probe or a cache write
    is made only with a key, a key is derived only on a helper with a
    cache, and the loop that picks the default keyset runs only over a
    registry of exactly one entry. *)
Theorem extract_never_panics `{Collaborators}
    (ctx : Ctx) (aux : option AuxData_JWT) (j : jwtHelper) :
  exists res err, out (extract ctx aux j) = Returns (res, err).
Proof.
  destruct (extract_returns ctx aux j) as ([[res err] Ho] & _). eauto.
Qed.

(** X2. A call of [extract] leaves the registry and the verification flag
    of the helper as they were, and neither creates nor removes the cache:
    only the state inside an existing cache can change. *)
Theorem extract_keeps_registry `{Collaborators}
    (ctx : Ctx) (aux : option AuxData_JWT) (j : jwtHelper) :
  keySets (self (extract ctx aux j)) = keySets j /\
  verify (self (extract ctx aux j)) = verify j /\
  (cache j = None <-> cache (self (extract ctx aux j)) = None).
Proof. apply extract_returns. Qed.

Section Stages.
Context `{Collaborators}.

(** The three ways the keyset block can end. *)
Lemma keySetOptions_cases ctx a j :
  (KeySetId a = "" /\ size (keySets j) <> 1%nat /\
   keySetOptions ctx a j =
   {| out := Returns ([], Some errNoKeySetToVerify); self := j; events := [] |})
  \/
  (KeySetId a <> "" /\ keySets j !! KeySetId a = None /\
   keySetOptions ctx a j =
   {| out := Returns ([], Some (errKeySetNotFound (KeySetId a))); self := j;
      events := [] |})
  \/
  (exists ks, selected a j ks /\
   keySetOptions ctx a j =
   {| out := Returns (keySetResult (keySet_keySet ks ctx)); self := j;
      events := [EvKeySet ks] |}).
Proof.
  destruct (String.eqb (KeySetId a) "") eqn:Hid.
  - apply String.eqb_eq in Hid.
    destruct (decide (size (keySets j) = 1%nat)) as [Hs|Hs].
    + destruct (size_one_singleton _ Hs) as (id & ks & Hm).
      right; right. exists ks. split; [left; eauto|].
      apply (keySetOptions_sole ctx a j id ks Hid Hm).
    + left. auto using keySetOptions_none_configured.
  - apply String.eqb_neq in Hid. destruct (keySets j !! KeySetId a) as [ks|] eqn:Hl.
    + right; right. exists ks. split; [right; auto|].
      apply (keySetOptions_known_id ctx a j ks Hid Hl).
    + right; left. auto using keySetOptions_unknown_id.
Qed.

Lemma selected_keySets a j j' ks :
  keySets j' = keySets j -> selected a j' ks -> selected a j ks.
Proof. unfold selected. intros ->. auto. Qed.

(** The options [parseOptions] returns without an error: the signature
    check is off only when verification is off or the probe hit, and
    otherwise the keys are those of the selected keyset. *)
Lemma parseOptions_options ctx a key j opts :
  (key <> "" -> exists c, cache j = Some c) ->
  out (parseOptions ctx a key j) = Returns (opts, None) ->
  (opts = skipSignature /\ (verify j = false \/ exists c', hit j key c')) \/
  (exists ks jwks, selected a j ks /\ keySet_keySet ks ctx = (jwks, None) /\
     opts = [WithKeySet jwks; WithValidate true]).
Proof.
  intros Hc Ho. destruct (verify j) eqn:Hv.
  - destruct (probe_cases j key Hv Hc) as [[c' Hh] | (j' & pre & Hn)].
    + rewrite (parseOptions_hit ctx a key j c' Hv Hh) in Ho. injection Ho as <-.
      left. eauto.
    + rewrite (parseOptions_not_hit ctx a key j j' pre Hv Hn) in Ho. cbn [out] in Ho.
      pose proof (notHit_keySets _ _ _ _ Hn) as Hks.
      destruct (keySetOptions_cases ctx a j')
        as [(_ & _ & Hr) | [(_ & _ & Hr) | (ks & Hsel & Hr)]];
        rewrite Hr in Ho; cbn [out] in Ho; try discriminate.
      right. destruct (keySet_keySet ks ctx) as [jwks [err|]] eqn:Hk;
        cbn [keySetResult] in Ho; [discriminate|].
      injection Ho as <-. exists ks, jwks.
      split; [eapply selected_keySets; eassumption|]. auto.
  - rewrite (parseOptions_unverified ctx a key j Hv) in Ho. injection Ho as <-.
    left. auto.
Qed.

(** The errors [parseOptions] returns. *)
Lemma parseOptions_errors ctx a key j opts e :
  (key <> "" -> exists c, cache j = Some c) ->
  out (parseOptions ctx a key j) = Returns (opts, Some e) ->
  (e = errNoKeySetToVerify /\ KeySetId a = "" /\ size (keySets j) <> 1%nat) \/
  (e = errKeySetNotFound (KeySetId a) /\ KeySetId a <> "" /\
   keySets j !! KeySetId a = None) \/
  (exists ks jwks err, selected a j ks /\ keySet_keySet ks ctx = (jwks, Some err) /\
     e = errKeySetRetrieve err).
Proof.
  intros Hc Ho. destruct (verify j) eqn:Hv.
  - destruct (probe_cases j key Hv Hc) as [[c' Hh] | (j' & pre & Hn)].
    + rewrite (parseOptions_hit ctx a key j c' Hv Hh) in Ho. discriminate.
    + rewrite (parseOptions_not_hit ctx a key j j' pre Hv Hn) in Ho. cbn [out] in Ho.
      pose proof (notHit_keySets _ _ _ _ Hn) as Hks.
      destruct (keySetOptions_cases ctx a j')
        as [(Hid & Hs & Hr) | [(Hid & Hl & Hr) | (ks & Hsel & Hr)]];
        rewrite Hr in Ho; cbn [out] in Ho.
      * injection Ho as _ <-. left. rewrite <- Hks. auto.
      * injection Ho as _ <-. right; left. rewrite <- Hks. auto.
      * right; right. destruct (keySet_keySet ks ctx) as [jwks [err|]] eqn:Hk;
          cbn [keySetResult] in Ho; [|discriminate].
        injection Ho as _ <-. exists ks, jwks, err.
        split; [eapply selected_keySets; eassumption|]. auto.
  - rewrite (parseOptions_unverified ctx a key j Hv) in Ho. discriminate.
Qed.

Lemma never_filter_nil (kind : Event -> bool) (es : list Event) :
  never kind es -> List.filter kind es = [].
Proof.
  unfold never. induction es as [|e es IH]; [reflexivity|]. cbn.
  destruct (kind e); [discriminate|]. exact IH.
Qed.

Lemma never_parse_Forall a (es : list Event) :
  never isParseCall es -> Forall (parseCallOf a) es.
Proof.
  intros Hn. apply Forall_forall. intros e Hin.
  apply list_elem_of_In in Hin.
  pose proof (never_In _ _ _ Hn Hin) as Hk. destruct e; try exact I. discriminate.
Qed.

End Stages.

(** X3. Every error [extract] returns is one of four: no keyset can be
    determined (no id in the request and not exactly one keyset), the named
    keyset is not in the registry, the selected keyset failed to deliver
    its keys (its error wrapped under ERR-259), or the parser rejected the
    token (its error wrapped under ERR-260). *)
Theorem extract_errors `{Collaborators}
    (ctx : Ctx) (a : AuxData_JWT) (j : jwtHelper)
    (res : option (gmap string Value)) (e : error) :
  out (extract ctx (Some a) j) = Returns (res, Some e) ->
  (e = errNoKeySetToVerify /\ KeySetId a = "" /\ size (keySets j) <> 1%nat) \/
  (e = errKeySetNotFound (KeySetId a) /\ KeySetId a <> "" /\
   keySets j !! KeySetId a = None) \/
  (exists ks jwks err, selected a j ks /\ keySet_keySet ks ctx = (jwks, Some err) /\
     e = errKeySetRetrieve err) \/
  (exists opts err, jwt_ParseString (Token a) opts = inr err /\ e = errParse err).
Proof.
  intros Ho.
  destruct (String.eqb (Token a) "") eqn:Ht.
  { unfold extract in Ho. rewrite Ht in Ho. discriminate. }
  apply String.eqb_neq in Ht.
  pose proof (cacheKeyOf_cache j (Token a)) as Hc.
  destruct (extract_cases ctx a j Ht) as (_ & _ & Hcases).
  destruct Hcases as [(o & e' & Ho1 & Hr) | [(o & Ho1 & Hr) | (msg & Hr)]];
    rewrite Hr in Ho; cbn [spanned after out] in Ho; try discriminate.
  - injection Ho as _ <-.
    destruct (parseOptions_errors ctx a _ j o e' Hc Ho1) as [E | [E | E]]; auto.
  - destruct (doExtract_inv ctx a o (cacheKeyOf j (Token a))
                (self (parseOptions ctx a (cacheKeyOf j (Token a)) j)))
      as [err Hp | | |]; cbn [out] in Ho; try discriminate.
    injection Ho as _ <-. do 3 right. eauto.
Qed.

Lemma extract_errors_witness :
  let j := Demo.helper Demo.parseClock Demo.conf1 in
  exists opts err,
    jwt_ParseString (Collaborators := Demo.world) "not a token" opts = inr err.
Proof.
  intros j.
  destruct (@extract_errors Demo.world tt
              {| Token := "not a token"; KeySetId := "" |} j None
              (errParse (errors_New "invalid compact serialization")))
    as [(E & _) | [(E & _) | [(ks & jwks & err & _ & _ & E) | (opts & err & Hp & _)]]];
    try discriminate E.
  - vm_compute. reflexivity.
  - exists opts, err. exact Hp.
Defined.

(** X4. Whenever [extract] calls the parser it passes the token of the
    request with validation of the time claims on, and either the keys of a
    keyset or the signature check switched off; it calls the parser at most
    once; and the signature check is off only on a helper with verification
    disabled or after a probe that hit. *)
Theorem extract_parse_calls `{Collaborators}
    (ctx : Ctx) (a : AuxData_JWT) (j : jwtHelper) :
  let r := extract ctx (Some a) j in
  Forall (parseCallOf a) (events r) /\
  (length (List.filter isParseCall (events r)) <= 1)%nat /\
  (existsb usesSkipSignature (events r) = true ->
   verify j = false \/ exists c', hit j (cacheKeyOf j (Token a)) c').
Proof.
  intros r. subst r.
  destruct (String.eqb (Token a) "") eqn:Ht.
  { unfold extract. rewrite Ht. cbn. repeat split; [constructor|lia|discriminate]. }
  apply String.eqb_neq in Ht.
  pose proof (cacheKeyOf_cache j (Token a)) as Hc.
  destruct (extract_cases ctx a j Ht) as (Hnp & _ & Hcases).
  set (key := cacheKeyOf j (Token a)) in *.
  set (r1 := parseOptions ctx a key j) in *.
  assert (Hskip1 : existsb usesSkipSignature (events r1) = false).
  { apply not_true_is_false. intros E. apply existsb_exists in E.
    destruct E as (e & Hin & He). pose proof (never_In _ _ _ Hnp Hin) as Hk.
    destruct e; discriminate. }
  assert (Hfilt1 : List.filter isParseCall (events r1) = [])
    by (apply never_filter_nil, Hnp).
  assert (Hquiet : forall (x : Run (option (gmap string Value) * option error)),
            events x = events r1 ->
            Forall (parseCallOf a) (events (spanned x)) /\
            (length (List.filter isParseCall (events (spanned x))) <= 1)%nat /\
            (existsb usesSkipSignature (events (spanned x)) = true ->
             verify j = false \/ exists c', hit j key c')).
  { intros x Hx. unfold spanned. cbn [events]. rewrite Hx. split; [|split].
    - constructor; [exact I|]. apply Forall_app. split.
      + apply never_parse_Forall, Hnp.
      + constructor; [exact I|constructor].
    - cbn [List.filter isParseCall]. rewrite List.filter_app, Hfilt1. cbn. lia.
    - cbn [existsb usesSkipSignature]. rewrite existsb_app, Hskip1. cbn. discriminate. }
  destruct Hcases as [(o & e' & Ho1 & Hr) | [(o & Ho1 & Hr) | (msg & Hr)]]; rewrite Hr.
  - apply Hquiet. reflexivity.
  - destruct (doExtract_events ctx a o key (self r1)) as (rest & He & Hrest & _).
    assert (Hskip2 : existsb usesSkipSignature rest = false).
    { apply not_true_is_false. intros E. apply existsb_exists in E.
      destruct E as (e & Hin & Hu). pose proof (never_In _ _ _ Hrest Hin) as Hk.
      destruct e; discriminate. }
    assert (Hfilt2 : List.filter isParseCall rest = [])
      by (apply never_filter_nil, Hrest).
    destruct (parseOptions_options ctx a key j o Hc Ho1) as [(-> & Hwhy) | (ks & jwks & _ & _ & ->)];
      unfold spanned, after; cbn [events]; rewrite He.
    + split; [|split].
      * constructor; [exact I|]. apply Forall_app. split; [|constructor; [exact I|constructor]].
        apply Forall_app. split; [apply never_parse_Forall, Hnp|].
        constructor; [cbn; auto|apply never_parse_Forall, Hrest].
      * cbn [List.filter isParseCall]. rewrite !List.filter_app, Hfilt1.
        cbn [List.filter isParseCall app]. rewrite Hfilt2. cbn. lia.
      * intros _. exact Hwhy.
    + split; [|split].
      * constructor; [exact I|]. apply Forall_app. split; [|constructor; [exact I|constructor]].
        apply Forall_app. split; [apply never_parse_Forall, Hnp|].
        constructor; [cbn; eauto|apply never_parse_Forall, Hrest].
      * cbn [List.filter isParseCall]. rewrite !List.filter_app, Hfilt1.
        cbn [List.filter isParseCall app]. rewrite Hfilt2. cbn. lia.
      * cbn [existsb usesSkipSignature]. rewrite !existsb_app, Hskip1.
        cbn [existsb usesSkipSignature orb]. rewrite Hskip2. cbn. discriminate.
  - apply Hquiet. reflexivity.
Qed.

Lemma extract_parse_calls_witness :
  let j := Demo.helper Demo.parseClock Demo.conf1 in
  let j1 := self (extract (H := Demo.world) tt (Demo.request "h.fresh.sig" "") j) in
  verify j1 = false \/ exists c', hit (H := Demo.world) j1 (cacheKeyOf j1 "h.fresh.sig") c'.
Proof.
  intros j j1.
  destruct (@extract_parse_calls Demo.world tt
              {| Token := "h.fresh.sig"; KeySetId := "nope" |} j1) as (_ & _ & Hwhy).
  apply Hwhy. vm_compute. reflexivity.
Defined.

(** X5. When the keyset the request selects cannot deliver its keys, as a
    local keyset whose construction failed never can, a call with
    verification enabled whose probe did not hit returns that error wrapped
    under ERR-259 right after asking the keyset, and the parser is not
    called. *)
Theorem failing_keyset_fails_extraction `{Collaborators}
    (ctx : Ctx) (a : AuxData_JWT) (j j' : jwtHelper) (pre : list Event)
    (ks : keySet) (jwks : option jwkSet) (err : error) :
  Token a <> "" -> verify j = true ->
  notHit j (cacheKeyOf j (Token a)) j' pre ->
  selected a j ks -> keySet_keySet ks ctx = (jwks, Some err) ->
  extract ctx (Some a) j =
  spanned {| out := Returns (None, Some (errKeySetRetrieve err)); self := j';
             events := (pre ++ [EvKeySet ks])%list |}.
Proof.
  intros Ht Hv Hn Hsel Hk.
  pose proof (notHit_keySets _ _ _ _ Hn) as Hks.
  rewrite (extract_run ctx a j Ht). cbn zeta.
  rewrite (parseOptions_not_hit ctx a _ j j' pre Hv Hn).
  assert (Hr : keySetOptions ctx a j' =
    {| out := Returns (keySetResult (keySet_keySet ks ctx)); self := j';
       events := [EvKeySet ks] |}).
  { destruct Hsel as [(Hid & id & Hm) | (Hid & Hl)].
    - apply (keySetOptions_sole ctx a j' id ks Hid). congruence.
    - apply (keySetOptions_known_id ctx a j' ks Hid). congruence. }
  rewrite Hr, Hk. reflexivity.
Qed.

Lemma failing_keyset_fails_extraction_witness :
  let j := Demo.helper Demo.parseClock Samples.confBroken in
  out (extract (H := Demo.world) tt (Demo.request "h.fresh.sig" "bad") j)
  = Returns (None, Some (errKeySetRetrieve
      (fmt_Errorf_w "[ERR-261] failed to apply base64 decoder to key data: %w"
         (errors_New "illegal base64 data")))).
Proof.
  intros j. unfold Demo.request.
  rewrite (@failing_keyset_fails_extraction Demo.world tt
             {| Token := "h.fresh.sig"; KeySetId := "bad" |} j j []
             (LocalKS (newLocalKeySet {| Data := "not base64"; File := ""; PEM := false |}))
             None
             (fmt_Errorf_w "[ERR-261] failed to apply base64 decoder to key data: %w"
                (errors_New "illegal base64 data"))).
  - reflexivity.
  - discriminate.
  - reflexivity.
  - apply NoKey. reflexivity.
  - right. split; [discriminate|reflexivity].
  - reflexivity.
Defined.

(** X6. On a helper with verification enabled and an empty registry, as the
    one [newJWTHelper] builds from a nil configuration, every call with a
    non-empty token whose probe did not hit fails before the parser is
    called: with [errNoKeySetToVerify] when the request names no keyset,
    with the keyset-not-found error when it names one. *)
Theorem empty_registry_rejects `{Collaborators}
    (ctx : Ctx) (a : AuxData_JWT) (j j' : jwtHelper) (pre : list Event) :
  Token a <> "" -> verify j = true -> keySets j = ∅ ->
  notHit j (cacheKeyOf j (Token a)) j' pre ->
  extract ctx (Some a) j =
  spanned {| out := Returns (None, Some (if String.eqb (KeySetId a) ""
                                         then errNoKeySetToVerify
                                         else errKeySetNotFound (KeySetId a)));
             self := j'; events := pre |}.
Proof.
  intros Ht Hv He Hn.
  pose proof (notHit_keySets _ _ _ _ Hn) as Hks. rewrite He in Hks.
  rewrite (extract_run ctx a j Ht). cbn zeta.
  rewrite (parseOptions_not_hit ctx a _ j j' pre Hv Hn).
  destruct (String.eqb (KeySetId a) "") eqn:Hid.
  - apply String.eqb_eq in Hid.
    rewrite (keySetOptions_none_configured ctx a j' Hid).
    + cbn [out self events]. rewrite app_nil_r. reflexivity.
    + rewrite Hks, map_size_empty. discriminate.
  - apply String.eqb_neq in Hid.
    rewrite (keySetOptions_unknown_id ctx a j' Hid).
    + cbn [out self events]. rewrite app_nil_r. reflexivity.
    + rewrite Hks. apply lookup_empty.
Qed.

Lemma empty_registry_rejects_witness :
  let j := fst (newJWTHelper (H := Demo.world) None) in
  extract (H := Demo.world) tt (Demo.request "h.fresh.sig" "") j =
  spanned {| out := Returns (None, Some errNoKeySetToVerify); self := j; events := [] |}.
Proof.
  intros j. unfold Demo.request.
  apply (@empty_registry_rejects Demo.world tt
           {| Token := "h.fresh.sig"; KeySetId := "" |} j j []).
  - discriminate.
  - reflexivity.
  - reflexivity.
  - apply NoKey. reflexivity.
Defined.

(** X7. With verification disabled [newJWTHelper] builds no keyset, no
    cache and no refresher, whatever the configuration lists, and a call
    with a non-empty token is then one call to the parser with the
    signature check off: it returns the converted claims of the token the
    parser returns, or the parser's error wrapped under ERR-260, and the
    helper is unchanged. *)
Theorem disabled_verification_run `{Collaborators}
    (conf : JWTConf) (ctx : Ctx) (a : AuxData_JWT) :
  DisableVerification conf = true -> Token a <> "" ->
  let j := fst (newJWTHelper (Some conf)) in
  newJWTHelper (Some conf) = ({| keySets := ∅; cache := None; verify := false |}, None)
  /\
  extract ctx (Some a) j =
  spanned
    match jwt_ParseString (Token a) skipSignature with
    | inl token =>
        {| out := Returns (Some (claimsOf (tokPairs token) ∅), None); self := j;
           events := EvParse (Token a) skipSignature :: warningsOf (tokPairs token) |}
    | inr err =>
        {| out := Returns (None, Some (errParse err)); self := j;
           events := [EvParse (Token a) skipSignature] |}
    end.
Proof.
  intros Hd Ht j.
  assert (Hnew : newJWTHelper (Some conf)
                 = ({| keySets := ∅; cache := None; verify := false |}, None)).
  { unfold newJWTHelper. rewrite Hd. reflexivity. }
  split; [exact Hnew|].
  assert (Hj : j = {| keySets := ∅; cache := None; verify := false |})
    by (subst j; rewrite Hnew; reflexivity).
  rewrite (extract_run ctx a j Ht). cbn zeta.
  rewrite (parseOptions_unverified ctx a _ j) by (rewrite Hj; reflexivity).
  cbn [out self events].
  assert (Hkey : cacheKeyOf j (Token a) = "") by (rewrite Hj; reflexivity).
  rewrite Hkey.
  destruct (jwt_ParseString (Token a) skipSignature) as [token|err] eqn:Hp.
  - rewrite (doExtract_uncached ctx a skipSignature j token Hp). reflexivity.
  - rewrite (doExtract_parse_failed ctx a skipSignature "" j err Hp). reflexivity.
Qed.

Lemma disabled_verification_run_witness :
  out (extract (H := Demo.world) tt (Demo.request "h.stale.sig" "nope")
         (Demo.helper Demo.parseClock Demo.confOff))
  = Returns (None, Some (errParse (errors_New "exp not satisfied"))).
Proof.
  destruct (@disabled_verification_run Demo.world Demo.confOff tt
              {| Token := "h.stale.sig"; KeySetId := "nope" |} eq_refl
              ltac:(discriminate)) as [_ Hrun].
  exact (eq_trans (f_equal out Hrun) eq_refl).
Defined.

Section Reverification.
Context `{Collaborators}.



End Reverification.




Section Ttl.
Context `{Collaborators}.

Lemma time_Sub_bounds (t u : Time) : minDuration <= time_Sub t u <= maxDuration.
Proof.
  unfold time_Sub.
  assert (Hmin : minDuration = - 9223372036854775808) by reflexivity.
  assert (Hmax : maxDuration = 9223372036854775807) by reflexivity.
  destruct (t - u <? minDuration) eqn:E1; [lia|]. apply Z.ltb_ge in E1.
  destruct (maxDuration <? t - u) eqn:E2; [lia|]. apply Z.ltb_ge in E2. lia.
Qed.

Lemma cacheExpiryFor_bounds (token : jwtToken) :
  0 < cacheExpiryFor token <= maxDuration.
Proof.
  unfold cacheExpiryFor, time_Until.
  pose proof (time_Sub_bounds (Expiration token) time_Now) as Hb.
  assert (Hmax : maxDuration = 9223372036854775807) by reflexivity.
  assert (Hdef : defaultCacheExpiry = 600000000000) by reflexivity.
  destruct (0 <? time_Sub (Expiration token) time_Now) eqn:E.
  - apply Z.ltb_lt in E. lia.
  - lia.
Qed.

Lemma never_cache_Forall a j (es : list Event) :
  never isCacheCall es -> Forall (cacheCallOf a j) es.
Proof.
  intros Hn. apply Forall_forall. intros e Hin. apply list_elem_of_In in Hin.
  pose proof (never_In _ _ _ Hn Hin) as Hk. destruct e; try exact I; discriminate.
Qed.

Lemma keySetOptions_no_cache ctx a j :
  never isCacheCall (events (keySetOptions ctx a j)).
Proof. apply keySetOptions_never. reflexivity. Qed.

End Ttl.

(** X9. Every call [extract] makes to the cache uses the key derived from
    the token, which is never empty, and every write carries a time-to-live
    that is positive and no larger than the largest [Duration]. *)
Theorem extract_cache_calls `{Collaborators}
    (ctx : Ctx) (a : AuxData_JWT) (j : jwtHelper) :
  Forall (cacheCallOf a j) (events (extract ctx (Some a) j)).
Proof.
  destruct (String.eqb (Token a) "") eqn:Ht.
  { unfold extract. rewrite Ht. constructor. }
  apply String.eqb_neq in Ht.
  pose proof (cacheKeyOf_cache j (Token a)) as Hc.
  set (key := cacheKeyOf j (Token a)) in *.
  assert (H1 : Forall (cacheCallOf a j) (events (parseOptions ctx a key j))).
  { destruct (verify j) eqn:Hv.
    - destruct (probe_cases j key Hv Hc) as [[c' Hh] | (j' & pre & Hn)].
      + rewrite (parseOptions_hit ctx a key j c' Hv Hh). cbn [events].
        destruct Hh as (Hk & _).
        repeat constructor; auto.
      + rewrite (parseOptions_not_hit ctx a key j j' pre Hv Hn). cbn [events].
        apply Forall_app. split.
        * destruct Hn as [Hk | c c' e Hk _ _]; repeat constructor; auto.
        * apply never_cache_Forall, keySetOptions_no_cache.
    - rewrite (parseOptions_unverified ctx a key j Hv). constructor. }
  assert (H2 : forall opts j1, Forall (cacheCallOf a j) (events (doExtract ctx a opts key j1))).
  { intros opts j1. destruct (doExtract_inv ctx a opts key j1); cbn [events].
    - repeat constructor.
    - constructor; [exact I|]. apply never_cache_Forall, warnings_never. reflexivity.
    - constructor; [exact I|]. constructor.
      + cbn. split; [reflexivity|]. split; [assumption|]. apply cacheExpiryFor_bounds.
      + apply never_cache_Forall, warnings_never. reflexivity.
    - repeat constructor. }
  destruct (extract_cases ctx a j Ht) as (_ & _ & Hcases). fold key in Hcases.
  destruct Hcases as [(o & e' & _ & Hr) | [(o & _ & Hr) | (msg & Hr)]]; rewrite Hr;
    unfold spanned, after; cbn [events]; constructor; try exact I;
    apply Forall_app; (split; [|repeat constructor]); try exact H1.
  apply Forall_app. split; [exact H1|apply H2].
Qed.

Section Claims.
Context `{Collaborators}.

Lemma claimsOf_snoc (pairs : list (any * any)) (p : any * any) (m : gmap string Value) :
  claimsOf (pairs ++ [p]) m = claimOf (claimsOf pairs m) p.
Proof. unfold claimsOf. rewrite fold_left_app. reflexivity. Qed.

Lemma claimsOf_sound (pairs : list (any * any)) (k : string) (v : Value) :
  claimsOf pairs ∅ !! k = Some v ->
  exists key raw,
    In (key, raw) pairs /\ fst (assert_string key) = k /\ ToStructPB raw = inl v.
Proof.
  induction pairs as [|[key raw] pairs IH] using rev_ind.
  - cbn. rewrite lookup_empty. discriminate.
  - rewrite claimsOf_snoc. unfold claimOf. cbn [fst snd].
    destruct (ToStructPB raw) as [value|e] eqn:Hc.
    + destruct (decide (fst (assert_string key) = k)) as [<-|Hne].
      * rewrite lookup_insert_eq. intros [= <-].
        exists key, raw. split; [apply in_or_app; right; left; reflexivity|auto].
      * rewrite lookup_insert_ne by exact Hne. intros Hl.
        destruct (IH Hl) as (key' & raw' & Hin & Hk & Hv).
        exists key', raw'. split; [apply in_or_app; auto|auto].
    + intros Hl. destruct (IH Hl) as (key' & raw' & Hin & Hk & Hv).
      exists key', raw'. split; [apply in_or_app; auto|auto].
Qed.

Lemma claimsOf_unconverted (post : list (any * any)) (k : string) :
  forall m : gmap string Value,
    (forall key raw, In (key, raw) post -> fst (assert_string key) = k ->
       exists e, ToStructPB raw = inr e) ->
    claimsOf post m !! k = m !! k.
Proof.
  induction post as [|[key raw] post IH]; intros m Hpost; [reflexivity|].
  change (claimsOf ((key, raw) :: post) m) with (claimsOf post (claimOf m (key, raw))).
  rewrite IH by (intros key' raw' Hin; apply Hpost; right; exact Hin).
  unfold claimOf. cbn [fst snd].
  destruct (ToStructPB raw) as [value|e] eqn:Hc; [|reflexivity].
  destruct (decide (fst (assert_string key) = k)) as [Hk|Hne].
  - destruct (Hpost key raw (or_introl eq_refl) Hk) as [e He]. congruence.
  - apply lookup_insert_ne, Hne.
Qed.

Lemma claimsOf_app (pre post : list (any * any)) (m : gmap string Value) :
  claimsOf (pre ++ post) m = claimsOf post (claimsOf pre m).
Proof. unfold claimsOf. apply fold_left_app. Qed.

End Claims.

(** X10. The loop over the pairs of a token always returns a mapping and
    leaves the helper alone. Every entry of the mapping is the converted
    value of a pair of the token, stored under the name the pair's key
    gives; and the converted value of a pair is in the mapping under that
    name unless a later pair with the same name has a value that converts
    too. A pair whose value does not convert leaves the mapping as it
    is. *)
Theorem claims_come_from_pairs `{Collaborators}
    (pairs : list (any * any)) (j : jwtHelper) :
  exists m,
    out (iterate pairs ∅ j) = Returns m /\ self (iterate pairs ∅ j) = j /\
    (forall k v, m !! k = Some v ->
       exists key raw,
         In (key, raw) pairs /\ fst (assert_string key) = k /\ ToStructPB raw = inl v)
    /\
    (forall pre key raw post v,
       pairs = (pre ++ (key, raw) :: post)%list -> ToStructPB raw = inl v ->
       (forall key' raw', In (key', raw') post ->
          fst (assert_string key') = fst (assert_string key) ->
          exists e, ToStructPB raw' = inr e) ->
       m !! fst (assert_string key) = Some v)
    /\
    (forall key raw e,
       ToStructPB raw = inr e ->
       out (iterate (pairs ++ [(key, raw)]) ∅ j) = Returns m).
Proof.
  exists (claimsOf pairs ∅). rewrite iterate_run. cbn [out self].
  split; [reflexivity|]. split; [reflexivity|]. split; [|split].
  - apply claimsOf_sound.
  - intros pre key raw post v -> Hc Hpost.
    rewrite claimsOf_app.
    change (claimsOf ((key, raw) :: post) (claimsOf pre ∅))
      with (claimsOf post (claimOf (claimsOf pre ∅) (key, raw))).
    rewrite (claimsOf_unconverted post _ _ Hpost).
    unfold claimOf. cbn [fst snd]. rewrite Hc. apply lookup_insert_eq.
  - intros key raw e Hc. rewrite iterate_run. cbn [out].
    rewrite claimsOf_snoc. unfold claimOf. cbn [snd]. rewrite Hc. reflexivity.
Qed.

Lemma claims_come_from_pairs_witness :
  exists m : gmap string any,
    out (iterate (H := Demo.world)
           [(AnyString "sub", AnyString "u1"); (AnyString "sub", AnyOther "chan")]
           ∅ (Demo.helper Demo.parseClock Demo.conf1)) = Returns m /\
    m !! "sub" = Some (AnyString "u1").
Proof.
  destruct (@claims_come_from_pairs Demo.world
              [(AnyString "sub", AnyString "u1"); (AnyString "sub", AnyOther "chan")]
              (Demo.helper Demo.parseClock Demo.conf1))
    as (m & Ho & _ & _ & Hlast & _).
  exists m. split; [exact Ho|].
  apply (Hlast [] (AnyString "sub") (AnyString "u1")
           [(AnyString "sub", AnyOther "chan")] (AnyString "u1")).
  - reflexivity.
  - reflexivity.
  - intros key' raw' [[= <- <-] | []] _. exists (errors_New "unsupported type").
    reflexivity.
Defined.

Section RegistryBuild.
Context `{Collaborators}.

Lemma addKeySet_fst (m : gmap string keySet) (jc : option jwkCache) (ks : KeySetConf) :
  fst (addKeySet (m, jc) ks) =
  match keySetOf ks with Some k => <[ID ks := k]> m | None => m end.
Proof.
  unfold addKeySet, keySetOf, newRemoteKeySet.
  destruct (Remote ks) as [r|]; [reflexivity|].
  destruct (Local ks); reflexivity.
Qed.

Lemma addKeySet_snd (m : gmap string keySet) (jc : option jwkCache) (ks : KeySetConf) :
  snd (addKeySet (m, jc) ks) =
  match Remote ks with
  | Some r => Some ((match jc with Some c => c | None => [] end) ++ [registerCall r])%list
  | None => jc
  end.
Proof.
  unfold addKeySet, registerCall, newRemoteKeySet.
  destruct (Remote ks) as [r|].
  - cbn. destruct (0 <? RefreshInterval r); reflexivity.
  - destruct (Local ks); reflexivity.
Qed.

Lemma fold_addKeySet_none (l : list KeySetConf) (id : string) :
  forall acc,
    (forall ks, In ks l -> ID ks = id -> keySetOf ks = None) ->
    fst (fold_left addKeySet l acc) !! id = fst acc !! id.
Proof.
  induction l as [|ks l IH]; intros [m jc] Hnone; [reflexivity|].
  cbn [fold_left]. destruct (addKeySet (m, jc) ks) as [m' jc'] eqn:E.
  rewrite IH by (intros ks' Hin; apply Hnone; right; exact Hin).
  pose proof (addKeySet_fst m jc ks) as Hf. rewrite E in Hf. cbn [fst] in Hf |- *.
  rewrite Hf. destruct (keySetOf ks) as [k|] eqn:Hk; [|reflexivity].
  destruct (decide (ID ks = id)) as [Hid|Hne].
  - rewrite (Hnone ks (or_introl eq_refl) Hid) in Hk. discriminate.
  - apply lookup_insert_ne, Hne.
Qed.

Lemma fold_addKeySet_last (pre post : list KeySetConf) (ks : KeySetConf)
    (id : string) (k : keySet) :
  forall acc,
    ID ks = id -> keySetOf ks = Some k ->
    (forall ks', In ks' post -> ID ks' = id -> keySetOf ks' = None) ->
    fst (fold_left addKeySet (pre ++ ks :: post) acc) !! id = Some k.
Proof.
  intros acc Hid Hk Hpost. rewrite fold_left_app. cbn [fold_left].
  destruct (fold_left addKeySet pre acc) as [m jc].
  destruct (addKeySet (m, jc) ks) as [m' jc'] eqn:E.
  rewrite (fold_addKeySet_none post id (m', jc') Hpost). cbn [fst].
  pose proof (addKeySet_fst m jc ks) as Hf. rewrite E, Hk in Hf. cbn [fst] in Hf.
  rewrite Hf, <- Hid. apply lookup_insert_eq.
Qed.

Lemma fold_addKeySet_register_calls (l : list KeySetConf) :
  forall acc,
    snd (fold_left addKeySet l acc) =
    match omap Remote l with
    | [] => snd acc
    | regs => Some ((match snd acc with Some c => c | None => [] end)
                      ++ map registerCall regs)%list
    end.
Proof.
  induction l as [|ks l IH]; intros [m jc]; [reflexivity|].
  cbn [fold_left]. destruct (addKeySet (m, jc) ks) as [m' jc'] eqn:E.
  rewrite IH. pose proof (addKeySet_snd m jc ks) as Hs. rewrite E in Hs.
  cbn [snd] in Hs |- *. cbn [omap list_omap]. fold (omap Remote l).
  destruct (Remote ks) as [r|]; subst jc'.
  - destruct (omap Remote l) as [|r' regs].
    + reflexivity.
    + cbn [map]. rewrite <- app_assoc. reflexivity.
  - reflexivity.
Qed.

End RegistryBuild.

(** X11. With verification enabled [newJWTHelper] stores, under each name,
    the keyset of the last entry of [conf.KeySets] with that name that sets
    a remote or a local source, the remote source winning when an entry
    sets both; entries that set neither are skipped, and a name none of
    whose entries sets a source is not in the registry. *)
Theorem registry_last_definition_wins `{Collaborators}
    (conf : JWTConf) (id : string) :
  DisableVerification conf = false ->
  let j := fst (newJWTHelper (Some conf)) in
  ((forall ks, In ks (KeySets conf) -> ID ks = id -> keySetOf ks = None) ->
   keySets j !! id = None)
  /\
  (forall pre ks post k,
     KeySets conf = (pre ++ ks :: post)%list -> ID ks = id -> keySetOf ks = Some k ->
     (forall ks', In ks' post -> ID ks' = id -> keySetOf ks' = None) ->
     keySets j !! id = Some k).
Proof.
  intros Hd j.
  assert (Hj : keySets j = fst (fold_left addKeySet (KeySets conf) (∅, None))).
  { subst j. unfold newJWTHelper. rewrite Hd. cbn [negb].
    destruct (fold_left addKeySet (KeySets conf) (∅, None)) as [m jc]. reflexivity. }
  rewrite Hj. split.
  - intros Hnone. rewrite (fold_addKeySet_none _ id _ Hnone). apply lookup_empty.
  - intros pre ks post k -> Hid Hk Hpost.
    apply fold_addKeySet_last; assumption.
Qed.

Lemma registry_last_definition_wins_witness :
  Demo.configured (Demo.helper Demo.parseClock Samples.confTwice) "ks1" = true /\
  exists k,
    keySets (Demo.helper Demo.parseClock Samples.confTwice) !! "ks1" = Some k /\
    keySet_keySet (H := Demo.world) k tt = (Some "K", None).
Proof.
  split; [vm_compute; reflexivity|].
  destruct (@registry_last_definition_wins Demo.world Samples.confTwice "ks1" eq_refl)
    as [_ Hlast].
  exists (LocalKS (newLocalKeySet {| Data := "Sw=="; File := ""; PEM := false |})).
  split; [|reflexivity].
  apply (Hlast
    [{| ID := "ks1"; Remote := None;
        Local := Some {| Data := "not base64"; File := ""; PEM := false |} |}]
    {| ID := "ks1"; Remote := None;
       Local := Some {| Data := "Sw=="; File := ""; PEM := false |} |}
    [{| ID := "ks1"; Remote := None; Local := None |};
     {| ID := "both";
        Remote := Some {| URL := "https://keys.example/a";
                          RefreshInterval := 90 * Second |};
        Local := Some {| Data := ""; File := "keys.jwk"; PEM := true |} |}]).
  - reflexivity.
  - reflexivity.
  - reflexivity.
  - intros ks' [<- | [<- | []]] Hid; [reflexivity|discriminate Hid].
Defined.

(** X12. [newJWTHelper] creates the shared [jwk.Cache] only when
    verification is enabled and an entry of the configuration sets a
    remote source.  It then calls [Register] on it once for each such
    entry, in the order of the configuration, with the URL of the entry,
    passing [WithRefreshInterval] when the interval of the entry is
    positive and no option otherwise.  The answers of [Register] are
    dropped: nothing is said of what the library holds afterwards. *)
Theorem register_calls_follow_configuration `{Collaborators} (conf : JWTConf) :
  snd (newJWTHelper (Some conf)) =
  if DisableVerification conf then None
  else match omap Remote (KeySets conf) with
       | [] => None
       | remotes => Some (map registerCall remotes)
       end.
Proof.
  unfold newJWTHelper. destruct (DisableVerification conf); [reflexivity|]. cbn [negb].
  pose proof (fold_addKeySet_register_calls (KeySets conf) (∅, None)) as Hs.
  destruct (fold_left addKeySet (KeySets conf) (∅, None)) as [m jc].
  cbn [snd] in Hs |- *. exact Hs.
Qed.

(** * Properties of the file classification *)

Example FileType_policy : Util.FileType "store/Album.YAML" = Util.FileTypePolicy.
Proof. reflexivity. Qed.

Example FileType_test_file : Util.FileType "store/album_test.yaml" = Util.FileTypeNotIndexed.
Proof. reflexivity. Qed.

Example FileType_schema_testdata :
  Util.FileType "_schemas/testdata/principal.json" = Util.FileTypeSchema.
Proof. reflexivity. Qed.

Example FileType_parent_directory : Util.FileType "../album.yaml" = Util.FileTypePolicy.
Proof. reflexivity. Qed.

Example Ext_of_hidden_name : Util.Ext "store/.bashrc" = ".bashrc".
Proof. reflexivity. Qed.

Example Ext_dot_in_directory : Util.Ext "store.d/album" = "".
Proof. reflexivity. Qed.

Example RelativeSchemaPath_of_directory : Util.RelativeSchemaPath "_schemas" = ("", false).
Proof. reflexivity. Qed.

Section UtilStrings.
Import Util.

Lemma append_cons (c : ascii) (x y : string) : String c x ++ y = String c (x ++ y).
Proof. reflexivity. Qed.

Lemma append_nil_l (y : string) : "" ++ y = y.
Proof. reflexivity. Qed.

Lemma take_drop_bytes (n : nat) (s : string) : take_bytes n s ++ drop_bytes n s = s.
Proof.
  revert s. induction n as [|n IH]; intros s; [reflexivity|].
  destruct s as [|c s]; [reflexivity|].
  cbn [take_bytes drop_bytes]. rewrite append_cons, IH. reflexivity.
Qed.

Lemma length_append (x y : string) :
  String.length (x ++ y) = (String.length x + String.length y)%nat.
Proof.
  induction x as [|c x IH]; [reflexivity|].
  rewrite append_cons. cbn [String.length]. rewrite IH. reflexivity.
Qed.

Lemma append_nil_r (x : string) : x ++ "" = x.
Proof.
  induction x as [|c x IH]; [reflexivity|]. rewrite append_cons, IH. reflexivity.
Qed.

Lemma append_assoc (x y z : string) : (x ++ y) ++ z = x ++ (y ++ z).
Proof.
  induction x as [|c x IH]; [reflexivity|]. rewrite !append_cons, IH. reflexivity.
Qed.

Lemma drop_bytes_append (x y : string) : drop_bytes (String.length x) (x ++ y) = y.
Proof.
  induction x as [|c x IH]; [reflexivity|].
  rewrite append_cons. cbn [String.length drop_bytes]. exact IH.
Qed.

Lemma take_bytes_append (x y : string) : take_bytes (String.length x) (x ++ y) = x.
Proof.
  induction x as [|c x IH]; [reflexivity|].
  rewrite append_cons. cbn [String.length take_bytes]. rewrite IH. reflexivity.
Qed.

Lemma length_drop_bytes (n : nat) (s : string) :
  String.length (drop_bytes n s) = (String.length s - n)%nat.
Proof.
  revert s. induction n as [|n IH]; intros s; [cbn; lia|].
  destruct s as [|c s]; [reflexivity|]. cbn [drop_bytes String.length]. rewrite IH. lia.
Qed.

Lemma append_inj_l (x y z : string) : x ++ y = x ++ z -> y = z.
Proof.
  induction x as [|c x IH]; [auto|]. rewrite !append_cons. intros [= E]. auto.
Qed.

(** A string has a suffix exactly when it ends with it. *)
Lemma HasSuffix_iff (s suffix : string) :
  HasSuffix s suffix = true <-> exists x, s = x ++ suffix.
Proof.
  unfold HasSuffix. split.
  - intros Hs. apply andb_true_iff in Hs. destruct Hs as [_ He].
    apply String.eqb_eq in He.
    exists (take_bytes (String.length s - String.length suffix) s).
    pose proof (take_drop_bytes (String.length s - String.length suffix) s) as Hs.
    rewrite He in Hs. symmetry. exact Hs.
  - intros [x ->]. rewrite length_append. apply andb_true_iff. split.
    + apply Nat.leb_le. lia.
    + replace (String.length x + String.length suffix - String.length suffix)%nat
        with (String.length x) by lia.
      rewrite drop_bytes_append. apply String.eqb_refl.
Qed.

Lemma HasPrefix_iff (s prefix : string) :
  HasPrefix s prefix = true <-> exists y, s = prefix ++ y.
Proof.
  revert s. induction prefix as [|p prefix IH]; intros s.
  - cbn [HasPrefix]. split; [eauto|reflexivity].
  - destruct s as [|c s]; cbn [HasPrefix].
    + split; [discriminate|]. intros [y Hy]. rewrite append_cons in Hy. discriminate.
    + rewrite andb_true_iff, IH. split.
      * intros [Hc [y ->]]. apply Ascii.eqb_eq in Hc. subst. exists y.
        rewrite append_cons. reflexivity.
      * intros [y Hy]. rewrite append_cons in Hy. injection Hy as -> ->.
        split; [apply Ascii.eqb_refl|eauto].
Qed.

Lemma LastIndexByte_lt_length (s : string) (c : ascii) :
  -1 <= LastIndexByte s c < Z.of_nat (String.length s).
Proof.
  induction s as [|a s IH]; cbn [LastIndexByte String.length]; [lia|].
  destruct (0 <=? LastIndexByte s c) eqn:E; [lia|].
  destruct (Ascii.eqb a c); lia.
Qed.

Lemma LastIndexByte_append (x y : string) (c : ascii) :
  LastIndexByte (x ++ y) c =
  if 0 <=? LastIndexByte y c then Z.of_nat (String.length x) + LastIndexByte y c
  else LastIndexByte x c.
Proof.
  induction x as [|a x IH].
  - rewrite append_nil_l. cbn [LastIndexByte String.length].
    destruct (0 <=? LastIndexByte y c) eqn:E; [lia|].
    apply Z.leb_gt in E. pose proof (LastIndexByte_lt_length y c). lia.
  - rewrite append_cons. cbn [LastIndexByte String.length]. rewrite IH. destruct (0 <=? LastIndexByte y c) eqn:E.
    + apply Z.leb_le in E.
      destruct (0 <=? Z.of_nat (String.length x) + LastIndexByte y c) eqn:E2;
        [lia|apply Z.leb_gt in E2; lia].
    + reflexivity.
Qed.

(** The extension of a name that ends with a dot followed by bytes that are
    neither dots nor separators is that ending. *)
Lemma Ext_of_ending (stem rest : string) :
  LastIndexByte rest "." < 0 -> LastIndexByte rest "/" < 0 ->
  Ext (stem ++ String "." rest) = String "." rest.
Proof.
  intros Hdot Hsep. unfold Ext.
  rewrite !LastIndexByte_append. cbn [LastIndexByte].
  destruct (0 <=? LastIndexByte rest ".") eqn:E1; [apply Z.leb_le in E1; lia|].
  destruct (0 <=? LastIndexByte rest "/") eqn:E2; [apply Z.leb_le in E2; lia|].
  cbn. pose proof (LastIndexByte_lt_length stem "/") as Hl.
  replace (Z.of_nat (String.length stem) + 0) with (Z.of_nat (String.length stem)) by lia.
  destruct (0 <=? Z.of_nat (String.length stem)) eqn:E3; [|apply Z.leb_gt in E3; lia].
  destruct (LastIndexByte stem "/" <? Z.of_nat (String.length stem)) eqn:E4;
    [|apply Z.ltb_ge in E4; lia].
  cbn. unfold slice_from. rewrite Nat2Z.id. apply drop_bytes_append.
Qed.

(** A name ends with its extension. *)
Lemma Ext_is_ending (path : string) : exists stem, path = stem ++ Ext path.
Proof.
  unfold Ext.
  destruct ((0 <=? LastIndexByte path ".") && (LastIndexByte path "/" <? LastIndexByte path ".")).
  - eexists. symmetry. apply take_drop_bytes.
  - exists path. symmetry. apply append_nil_r.
Qed.

(** For an ending made of a dot and bytes that are neither dots nor
    separators, having it as extension is ending with it. *)
Lemma Ext_eq_iff_HasSuffix (path rest : string) :
  LastIndexByte rest "." < 0 -> LastIndexByte rest "/" < 0 ->
  Ext path = String "." rest <-> HasSuffix path (String "." rest) = true.
Proof.
  intros Hdot Hsep. rewrite HasSuffix_iff. split.
  - intros He. destruct (Ext_is_ending path) as [stem Hs]. rewrite He in Hs. eauto.
  - intros [stem ->]. apply Ext_of_ending; assumption.
Qed.

Lemma lower_byte_dot (c : ascii) : Ascii.eqb (lower_byte c) "." = Ascii.eqb c ".".
Proof. destruct c as [[] [] [] [] [] [] [] []]; reflexivity. Qed.

Lemma lower_byte_slash (c : ascii) : Ascii.eqb (lower_byte c) "/" = Ascii.eqb c "/".
Proof. destruct c as [[] [] [] [] [] [] [] []]; reflexivity. Qed.

Lemma LastIndexByte_ToLower (s : string) (c : ascii) :
  (forall x, Ascii.eqb (lower_byte x) c = Ascii.eqb x c) ->
  LastIndexByte (ToLower s) c = LastIndexByte s c.
Proof.
  intros Hc. induction s as [|a s IH]; cbn [ToLower LastIndexByte]; [reflexivity|].
  rewrite IH, Hc. reflexivity.
Qed.

Lemma drop_bytes_ToLower (n : nat) (s : string) :
  drop_bytes n (ToLower s) = ToLower (drop_bytes n s).
Proof.
  revert s. induction n as [|n IH]; intros s; [reflexivity|].
  destruct s as [|c s]; [reflexivity|]. cbn. apply IH.
Qed.

Lemma ToLower_append (x y : string) : ToLower (x ++ y) = ToLower x ++ ToLower y.
Proof.
  induction x as [|c x IH]; [reflexivity|].
  rewrite append_cons. cbn [ToLower]. rewrite append_cons, IH. reflexivity.
Qed.

Lemma length_ToLower (s : string) : String.length (ToLower s) = String.length s.
Proof. induction s as [|c s IH]; cbn; [reflexivity|]. rewrite IH. reflexivity. Qed.

(** Lowering the extension is taking the extension of the lowered name. *)
Lemma ToLower_Ext (path : string) : ToLower (Ext path) = Ext (ToLower path).
Proof.
  unfold Ext.
  rewrite (LastIndexByte_ToLower path "." lower_byte_dot).
  rewrite (LastIndexByte_ToLower path "/" lower_byte_slash).
  destruct ((0 <=? LastIndexByte path ".") && (LastIndexByte path "/" <? LastIndexByte path "."));
    [|reflexivity].
  unfold slice_from. symmetry. apply drop_bytes_ToLower.
Qed.

Lemma supported_iff (ext : string) :
  ext ∈ supportedFileTypes <-> ext = ".yaml" \/ ext = ".yml" \/ ext = ".json".
Proof.
  unfold supportedFileTypes. rewrite !elem_of_union, !elem_of_singleton. tauto.
Qed.

Lemma IsSupportedFileType_iff (fileName : string) :
  IsSupportedFileType fileName = true <->
  HasSuffix (ToLower fileName) ".yaml" = true \/
  HasSuffix (ToLower fileName) ".yml" = true \/
  HasSuffix (ToLower fileName) ".json" = true.
Proof.
  unfold IsSupportedFileType, IsSupportedFileTypeExt. cbn [snd].
  rewrite bool_decide_eq_true, supported_iff, ToLower_Ext.
  rewrite !Ext_eq_iff_HasSuffix by (cbn; lia). reflexivity.
Qed.

End UtilStrings.

Section UtilPaths.
Import Util.

Lemma Split_nonempty (s : string) (sep : ascii) :
  exists x l, Split s sep = x :: l.
Proof.
  induction s as [|a s (x & l & IH)]; cbn [Split]; [eauto|].
  destruct (Ascii.eqb a sep); [eauto|]. rewrite IH. eauto.
Qed.

Lemma Split_append (x y : string) (sep : ascii) :
  Split (x ++ String sep y) sep = (Split x sep ++ Split y sep)%list.
Proof.
  induction x as [|a x IH].
  - rewrite append_nil_l. cbn [Split]. rewrite Ascii.eqb_refl. reflexivity.
  - rewrite append_cons. cbn [Split]. rewrite IH.
    destruct (Ascii.eqb a sep); [reflexivity|].
    destruct (Split_nonempty x sep) as (seg & rest & ->). reflexivity.
Qed.

(** A path with two segments or more is its first segment, a separator and
    the rest. *)
Lemma Split_first (s : string) (sep : ascii) (x y : string) (l : list string) :
  Split s sep = x :: y :: l ->
  exists rest, s = x ++ String sep rest /\ Split rest sep = y :: l.
Proof.
  revert x. induction s as [|a s IH]; intros x; cbn [Split]; [discriminate|].
  destruct (Ascii.eqb a sep) eqn:Ea.
  - apply Ascii.eqb_eq in Ea. subst a. intros [= <- Hs]. exists s. auto.
  - destruct (Split s sep) as [|seg rest] eqn:Es; [discriminate|].
    intros [= <- ->]. destruct (IH seg eq_refl) as (r & -> & Hr).
    exists r. rewrite append_cons. auto.
Qed.

Lemma length_take_bytes (n : nat) (s : string) :
  (n <= String.length s)%nat -> String.length (take_bytes n s) = n.
Proof.
  revert s. induction n as [|n IH]; intros s Hn; [reflexivity|].
  destruct s as [|c s]; cbn [String.length] in *; [lia|].
  cbn [take_bytes String.length]. rewrite IH by lia. reflexivity.
Qed.

(** A path that has a separator is a directory, the separator and a last
    element without separator; the last element is the last segment. *)
Lemma last_segment (path : string) :
  (LastIndexByte path "/" < 0 /\ List.last (Split path "/") "" = path) \/
  (exists dir name,
     path = dir ++ String "/" name /\ LastIndexByte name "/" < 0 /\
     List.last (Split path "/") "" = name).
Proof.
  destruct (0 <=? LastIndexByte path "/") eqn:E.
  - apply Z.leb_le in E. right.
    pose proof (slice_at_last_separator path "/" E) as Hs.
    pose proof (LastIndexByte_lt_length path "/") as Hl.
    set (i := Z.to_nat (LastIndexByte path "/")) in *.
    exists (take_bytes i path), (List.last (Split path "/") "").
    assert (Hp : path = take_bytes i path ++ String "/" (List.last (Split path "/") "")).
    { unfold slice_from in Hs. fold i in Hs. rewrite <- Hs. symmetry.
      apply take_drop_bytes. }
    split; [exact Hp|]. split; [|reflexivity].
    pose proof (f_equal (fun s => LastIndexByte s "/") Hp) as Hi. cbn beta in Hi.
    rewrite LastIndexByte_append in Hi. cbn [LastIndexByte] in Hi.
    rewrite length_take_bytes in Hi by (subst i; lia).
    destruct (0 <=? LastIndexByte (List.last (Split path "/") "") "/") eqn:E1.
    + apply Z.leb_le in E1. cbn in Hi.
      destruct (0 <=? LastIndexByte (List.last (Split path "/") "") "/" + 1) eqn:E2;
        [|apply Z.leb_gt in E2; lia]. subst i. lia.
    + apply Z.leb_gt in E1. exact E1.
  - apply Z.leb_gt in E. left. split; [exact E|].
    rewrite (Split_absent _ _ E). reflexivity.
Qed.

Lemma drop_bytes_append_add (x y : string) (m : nat) :
  drop_bytes (String.length x + m) (x ++ y) = drop_bytes m y.
Proof.
  induction x as [|c x IH]; [reflexivity|].
  rewrite append_cons. cbn [String.length drop_bytes Nat.add]. exact IH.
Qed.

Ltac split_comparisons :=
  repeat match goal with
         | |- context [?a <=? ?b] => destruct (Z.leb_spec a b)
         | |- context [?a <? ?b] => destruct (Z.ltb_spec a b)
         end.

Lemma LastIndexByte_under_dir (dir name : string) (c : ascii) :
  LastIndexByte (dir ++ String "/" name) c =
  if 0 <=? LastIndexByte name c
  then Z.of_nat (String.length dir) + 1 + LastIndexByte name c
  else if Ascii.eqb "/" c then Z.of_nat (String.length dir)
       else LastIndexByte dir c.
Proof.
  rewrite LastIndexByte_append. cbn [LastIndexByte].
  destruct (Ascii.eqb "/" c); split_comparisons; lia.
Qed.

(** The extension of a path is the extension of its last segment. *)
Lemma Ext_last_segment (path : string) :
  Ext path = Ext (List.last (Split path "/") "").
Proof.
  destruct (last_segment path) as [[_ ->] | (dir & name & -> & Hsep & ->)];
    [reflexivity|].
  unfold Ext. rewrite !LastIndexByte_under_dir.
  change (Ascii.eqb "/" ".") with false. change (Ascii.eqb "/" "/") with true.
  pose proof (LastIndexByte_lt_length dir ".") as Hd.
  destruct (Z.leb_spec 0 (LastIndexByte name "/")) as [Hs|_]; [lia|].
  destruct (Z.leb_spec 0 (LastIndexByte name ".")) as [Hdot|Hdot].
  - destruct (Z.leb_spec 0 (Z.of_nat (String.length dir) + 1 + LastIndexByte name "."));
      [|lia].
    destruct (Z.ltb_spec (Z.of_nat (String.length dir))
                (Z.of_nat (String.length dir) + 1 + LastIndexByte name ".")); [|lia].
    destruct (Z.ltb_spec (LastIndexByte name "/") (LastIndexByte name ".")); [|lia].
    cbn [andb]. unfold slice_from.
    replace (Z.to_nat (Z.of_nat (String.length dir) + 1 + LastIndexByte name "."))
      with (String.length dir + S (Z.to_nat (LastIndexByte name ".")))%nat by lia.
    rewrite drop_bytes_append_add. reflexivity.
  - destruct (Z.ltb_spec (Z.of_nat (String.length dir)) (LastIndexByte dir "."));
      [lia|].
    rewrite andb_false_r. reflexivity.
Qed.

Lemma IsSupportedFileType_last_segment (path : string) :
  IsSupportedFileType (List.last (Split path "/") "") = IsSupportedFileType path.
Proof.
  unfold IsSupportedFileType, IsSupportedFileTypeExt. cbn [snd].
  rewrite <- Ext_last_segment. reflexivity.
Qed.

Lemma IsJSONFileTypeExt_iff (fileName : string) :
  IsJSONFileTypeExt fileName = true <-> HasSuffix (ToLower fileName) ".json" = true.
Proof.
  unfold IsJSONFileTypeExt. rewrite String.eqb_eq, ToLower_Ext.
  apply Ext_eq_iff_HasSuffix; cbn; lia.
Qed.

Lemma HasPrefix_schemas (path : string) :
  HasPrefix path (SchemasDirectory ++ "/") = true ->
  List.hd "" (Split path "/") = SchemasDirectory.
Proof.
  intros Hp. apply HasPrefix_iff in Hp. destruct Hp as [rest ->].
  change ((SchemasDirectory ++ "/") ++ rest) with (SchemasDirectory ++ String "/" rest).
  rewrite Split_append. reflexivity.
Qed.

Lemma eqb_append_longer (x y : string) : x <> "" -> String.eqb y (x ++ y) = false.
Proof.
  intros Hx. apply String.eqb_neq. intros E.
  apply (f_equal String.length) in E. rewrite length_append in E.
  destruct x; [congruence|]. cbn [String.length] in E. lia.
Qed.

End UtilPaths.

(** X13. For a name of ASCII bytes, [IsSupportedFileType] holds exactly
    when the name, lowered, ends with [.yaml], [.yml] or [.json]; the
    extension [IsSupportedFileTypeExt] returns is then that ending, and
    [IsJSONFileTypeExt] holds exactly for the ending [.json]. *)
Theorem supported_file_type_is_a_suffix_test (fileName : string) :
  Util.isASCII fileName = true ->
  (Util.IsSupportedFileType fileName = true <->
   Util.HasSuffix (Util.ToLower fileName) ".yaml" = true \/
   Util.HasSuffix (Util.ToLower fileName) ".yml" = true \/
   Util.HasSuffix (Util.ToLower fileName) ".json" = true)
  /\
  (Util.IsSupportedFileType fileName = true ->
   Util.HasSuffix (Util.ToLower fileName)
     (fst (Util.IsSupportedFileTypeExt fileName)) = true)
  /\
  (Util.IsJSONFileTypeExt fileName = true <->
   Util.HasSuffix (Util.ToLower fileName) ".json" = true).
Proof.
  intros _. split; [apply IsSupportedFileType_iff|]. split; [|apply IsJSONFileTypeExt_iff].
  intros _. unfold Util.IsSupportedFileTypeExt. cbn [fst].
  rewrite ToLower_Ext. apply HasSuffix_iff. apply Ext_is_ending.
Qed.

Lemma supported_file_type_is_a_suffix_test_witness :
  Util.IsSupportedFileType "Policy.YAML" = true <->
  Util.HasSuffix (Util.ToLower "Policy.YAML") ".yaml" = true \/
  Util.HasSuffix (Util.ToLower "Policy.YAML") ".yml" = true \/
  Util.HasSuffix (Util.ToLower "Policy.YAML") ".json" = true.
Proof.
  apply (supported_file_type_is_a_suffix_test "Policy.YAML"). reflexivity.
Defined.

Section TestFiles.
Import Util.

Lemma IsSupportedTestFile_unfold (fileName : string) :
  IsSupportedTestFile fileName =
  bool_decide (Ext (ToLower fileName) ∈ supportedFileTypes) &&
  HasSuffix (take_bytes (String.length (ToLower fileName)
                         - String.length (Ext (ToLower fileName)))
               (ToLower fileName)) "_test".
Proof.
  unfold IsSupportedTestFile, IsSupportedFileTypeExt. rewrite ToLower_Ext.
  destruct (bool_decide (Ext (ToLower fileName) ∈ supportedFileTypes)); reflexivity.
Qed.

(** The part of a name before its ending. *)
Lemma take_before_ending (stem ending : string) :
  take_bytes (String.length (stem ++ ending) - String.length ending) (stem ++ ending)
  = stem.
Proof.
  rewrite length_append.
  replace (String.length stem + String.length ending - String.length ending)%nat
    with (String.length stem) by lia.
  apply take_bytes_append.
Qed.

Lemma test_file_with_ending (g rest : string) :
  LastIndexByte rest "." < 0 -> LastIndexByte rest "/" < 0 ->
  (Ext g = String "." rest /\
   HasSuffix (take_bytes (String.length g - String.length (Ext g)) g) "_test" = true)
  <-> HasSuffix g ("_test" ++ String "." rest) = true.
Proof.
  intros Hd Hs. split.
  - intros [He Ht]. destruct (Ext_is_ending g) as [stem Hstem].
    rewrite Hstem in Ht at 1 3. rewrite take_before_ending in Ht.
    apply HasSuffix_iff in Ht. destruct Ht as [x ->].
    apply HasSuffix_iff. exists x. rewrite Hstem, He. apply append_assoc.
  - intros Hg. apply HasSuffix_iff in Hg. destruct Hg as [x ->].
    rewrite <- append_assoc.
    assert (He : Ext ((x ++ "_test") ++ String "." rest) = String "." rest)
      by (apply Ext_of_ending; assumption).
    split; [exact He|]. rewrite He, take_before_ending.
    apply HasSuffix_iff. eauto.
Qed.

End TestFiles.

(** X14. For a name of ASCII bytes, [IsSupportedTestFile] holds exactly
    when the name, lowered, ends with [_test.yaml], [_test.yml] or
    [_test.json]; in particular a test file has a supported extension. *)
Theorem supported_test_file_is_a_suffix_test (fileName : string) :
  Util.isASCII fileName = true ->
  (Util.IsSupportedTestFile fileName = true <->
   Util.HasSuffix (Util.ToLower fileName) "_test.yaml" = true \/
   Util.HasSuffix (Util.ToLower fileName) "_test.yml" = true \/
   Util.HasSuffix (Util.ToLower fileName) "_test.json" = true)
  /\
  (Util.IsSupportedTestFile fileName = true -> Util.IsSupportedFileType fileName = true).
Proof.
  intros _. rewrite IsSupportedTestFile_unfold, andb_true_iff, bool_decide_eq_true.
  split.
  - rewrite supported_iff.
    change "_test.yaml" with ("_test" ++ String "." "yaml").
    change "_test.yml" with ("_test" ++ String "." "yml").
    change "_test.json" with ("_test" ++ String "." "json").
    rewrite <- !test_file_with_ending by (cbn; lia). tauto.
  - intros [Hs _]. unfold Util.IsSupportedFileType, Util.IsSupportedFileTypeExt.
    cbn [snd]. rewrite ToLower_Ext. apply bool_decide_eq_true. exact Hs.
Qed.

Lemma supported_test_file_is_a_suffix_test_witness :
  Util.IsSupportedFileType "Album_Test.Json" = true.
Proof.
  destruct (supported_test_file_is_a_suffix_test "Album_Test.Json" eq_refl) as [_ Hsup].
  apply Hsup. reflexivity.
Defined.

Section Classification.
Import Util.

Lemma FileType_cases (path : string) :
  let segments := Split path "/" in
  let inSchemas := String.eqb (List.hd "" segments) SchemasDirectory in
  FileType path <> FileTypeNotIndexed ->
  existsb (excluded inSchemas) segments = false /\
  (FileType path = FileTypeSchema /\ inSchemas = true /\
   IsJSONFileTypeExt (List.last segments "") = true
   \/
   FileType path = FileTypePolicy /\ inSchemas = false /\
   IsSupportedFileType (List.last segments "") = true /\
   IsSupportedTestFile (List.last segments "") = false).
Proof.
  intros segments inSchemas. unfold FileType. fold segments. fold inSchemas.
  destruct (existsb (excluded inSchemas) segments); [congruence|].
  intros Hne. split; [reflexivity|].
  destruct inSchemas.
  - destruct (IsJSONFileTypeExt (List.last segments "")); [auto|congruence].
  - destruct (IsSupportedFileType (List.last segments "")); [|cbn in Hne; congruence].
    destruct (IsSupportedTestFile (List.last segments "")); [cbn in Hne; congruence|].
    auto 6.
Qed.

Lemma not_excluded (inSchemas : bool) (segments : list string) (segment : string) :
  existsb (excluded inSchemas) segments = false -> In segment segments ->
  IsHidden segment = false /\ (inSchemas = false -> segment <> TestDataDirectory).
Proof.
  intros He Hin.
  assert (Hx : excluded inSchemas segment = false).
  { destruct (excluded inSchemas segment) eqn:E; [|reflexivity].
    assert (existsb (excluded inSchemas) segments = true)
      by (apply existsb_exists; eauto). congruence. }
  unfold excluded in Hx. apply orb_false_iff in Hx. destruct Hx as [Hh Ht].
  split; [exact Hh|]. intros -> ->. discriminate.
Qed.

End Classification.

(** X15. A path of ASCII bytes that [FileType] classifies as a schema lies
    in the schemas directory: it is [_schemas/] followed by a rest, which
    [RelativeSchemaPath] returns with its flag set; lowered, it ends with
    [.json]; and none of its segments is hidden. *)
Theorem schema_files_lie_under_schemas (path : string) :
  Util.isASCII path = true ->
  Util.FileType path = Util.FileTypeSchema ->
  exists rest,
    path = "_schemas/" ++ rest /\
    Util.RelativeSchemaPath path = (rest, true) /\
    Util.HasSuffix (Util.ToLower path) ".json" = true /\
    (forall segment, In segment (Split path "/") -> Util.IsHidden segment = false).
Proof.
  intros _ Hs.
  destruct (FileType_cases path) as [Hex [(_ & Hin & Hjson) | (Hp & _)]];
    [congruence | | congruence].
  apply String.eqb_eq in Hin.
  destruct (Split path "/") as [|x [|y l]] eqn:Esplit.
  - destruct (Split_nonempty path "/") as (x & l & E). congruence.
  - cbn in Hin, Hjson. subst x. discriminate Hjson.
  - cbn [List.hd] in Hin. subst x.
    destruct (Split_first path "/" _ _ _ Esplit) as (rest & Hpath & _).
    exists rest. split; [exact Hpath|]. split; [|split].
    + unfold Util.RelativeSchemaPath, Util.TrimPrefix.
      assert (Hpre : Util.HasPrefix path (Util.SchemasDirectory ++ "/") = true)
        by (apply HasPrefix_iff; exists rest; exact Hpath).
      rewrite Hpre. rewrite Hpath at 1.
      change (Util.SchemasDirectory ++ String "/" rest)
        with ((Util.SchemasDirectory ++ "/") ++ rest).
      rewrite drop_bytes_append. rewrite Hpath.
      change (Util.SchemasDirectory ++ String "/" rest) with ("_schemas/" ++ rest).
      rewrite eqb_append_longer by discriminate. reflexivity.
    + apply IsJSONFileTypeExt_iff. unfold Util.IsJSONFileTypeExt in *.
      rewrite Ext_last_segment, Esplit. exact Hjson.
    + intros segment Hseg.
      destruct (not_excluded _ _ _ Hex Hseg) as [Hh _]. exact Hh.
Qed.

Lemma schema_files_lie_under_schemas_witness :
  exists rest,
    "_schemas/testdata/Principal.JSON" = "_schemas/" ++ rest /\
    Util.RelativeSchemaPath "_schemas/testdata/Principal.JSON" = (rest, true).
Proof.
  destruct (schema_files_lie_under_schemas "_schemas/testdata/Principal.JSON"
              eq_refl eq_refl) as (rest & Hp & Hr & _).
  exists rest. split; assumption.
Defined.

(** X16. A path of ASCII bytes that [FileType] classifies as a policy is
    outside the schemas directory, so [RelativeSchemaPath] returns it with
    the flag unset; lowered, it ends with [.yaml], [.yml] or [.json]; its
    file name is not a test file; and none of its segments is hidden or is
    the test data directory. *)
Theorem policy_files_lie_outside_schemas (path : string) :
  Util.isASCII path = true ->
  Util.FileType path = Util.FileTypePolicy ->
  Util.RelativeSchemaPath path = ("", false) /\
  (Util.HasSuffix (Util.ToLower path) ".yaml" = true \/
   Util.HasSuffix (Util.ToLower path) ".yml" = true \/
   Util.HasSuffix (Util.ToLower path) ".json" = true) /\
  Util.IsSupportedTestFile (List.last (Split path "/") "") = false /\
  (forall segment, In segment (Split path "/") ->
     Util.IsHidden segment = false /\ segment <> "testdata").
Proof.
  intros _ Hp.
  destruct (FileType_cases path) as [Hex [(Hs & _) | (_ & Hin & Hsup & Htest)]];
    [congruence | congruence |].
  split; [|split; [|split]].
  - unfold Util.RelativeSchemaPath, Util.TrimPrefix.
    destruct (Util.HasPrefix path (Util.SchemasDirectory ++ "/")) eqn:Hpre.
    + apply HasPrefix_schemas in Hpre. rewrite Hpre, String.eqb_refl in Hin.
      discriminate.
    + rewrite String.eqb_refl. reflexivity.
  - apply IsSupportedFileType_iff. rewrite <- IsSupportedFileType_last_segment.
    exact Hsup.
  - exact Htest.
  - intros segment Hseg. destruct (not_excluded _ _ _ Hex Hseg) as [Hh Ht].
    split; [exact Hh|]. apply Ht, Hin.
Qed.

Lemma policy_files_lie_outside_schemas_witness :
  Util.RelativeSchemaPath "store/Album.YAML" = ("", false).
Proof.
  apply (policy_files_lie_outside_schemas "store/Album.YAML" eq_refl eq_refl).
Defined.

(** X17. [RelativeSchemaPath] returns a path with the flag set exactly for
    the paths that are [_schemas/] followed by that path, and returns the
    empty path with the flag unset exactly for the paths that do not start
    with [_schemas/]; the directory itself, without the separator, is not
    inside it. *)
Theorem relative_schema_path_round_trip (path schemaPath : string) :
  (Util.RelativeSchemaPath path = (schemaPath, true) <-> path = "_schemas/" ++ schemaPath)
  /\
  (Util.RelativeSchemaPath path = ("", false) <->
   Util.HasPrefix path "_schemas/" = false).
Proof.
  unfold Util.RelativeSchemaPath, Util.TrimPrefix.
  change (Util.SchemasDirectory ++ "/") with "_schemas/".
  destruct (Util.HasPrefix path "_schemas/") eqn:Hpre.
  - apply HasPrefix_iff in Hpre. destruct Hpre as [rest ->].
    rewrite drop_bytes_append, eqb_append_longer by discriminate.
    split; split; try discriminate.
    + intros [= ->]. reflexivity.
    + intros E. apply append_inj_l in E. subst. reflexivity.
  - rewrite String.eqb_refl. split; split; try discriminate; try reflexivity.
    intros ->. assert (Util.HasPrefix ("_schemas/" ++ schemaPath) "_schemas/" = true)
      by (apply HasPrefix_iff; eauto). congruence.
Qed.

(** X18. [OpenOneOfSupportedFiles] opens the first match of the pattern
    that has a supported extension and returns what opening it returns;
    matches before it are skipped; when no match has a supported
    extension it fails with [ErrNoMatchingFiles] and opens nothing. *)
Theorem open_first_supported_match {File : Type}
    (Glob : string -> list string + error) (Open : string -> File + error)
    (fileName : string) (matches : list string) :
  Glob (fileName ++ ".*") = inl matches ->
  ((forall m, In m matches -> Util.IsSupportedFileType m = false) ->
   Util.OpenOneOfSupportedFiles Glob Open fileName = (None, Some Util.ErrNoMatchingFiles))
  /\
  (forall skipped m rest,
     matches = (skipped ++ m :: rest)%list ->
     (forall x, In x skipped -> Util.IsSupportedFileType x = false) ->
     Util.IsSupportedFileType m = true ->
     Util.OpenOneOfSupportedFiles Glob Open fileName =
     match Open m with
     | inl file => (Some file, None)
     | inr err => (None, Some err)
     end).
Proof.
  intros Hg. unfold Util.OpenOneOfSupportedFiles. rewrite Hg. split.
  - intros Hnone.
    assert (Hf : List.find Util.IsSupportedFileType matches = None).
    { destruct (List.find Util.IsSupportedFileType matches) as [m|] eqn:E; [|reflexivity].
      apply List.find_some in E. destruct E as [Hin Hs].
      rewrite (Hnone m Hin) in Hs. discriminate. }
    rewrite Hf. reflexivity.
  - intros skipped m rest -> Hskip Hm.
    assert (Hf : List.find Util.IsSupportedFileType (skipped ++ m :: rest) = Some m).
    { clear Hg. induction skipped as [|x skipped IH]; cbn [app List.find].
      - rewrite Hm. reflexivity.
      - rewrite (Hskip x (or_introl eq_refl)).
        apply IH. intros y Hy. apply Hskip. right. exact Hy. }
    rewrite Hf.
    assert (Hne : String.eqb m "" = false).
    { apply String.eqb_neq. intros ->. discriminate Hm. }
    rewrite Hne. destruct (Open m); reflexivity.
Qed.

Lemma open_first_supported_match_witness :
  Util.OpenOneOfSupportedFiles
    (fun pattern => inl [pattern ++ ".bak"; "album.yml"; "album.json"])
    (fun path => inl (String.length path)) "album"
  = (Some 9%nat, None).
Proof.
  destruct (@open_first_supported_match nat
              (fun pattern => inl [pattern ++ ".bak"; "album.yml"; "album.json"])
              (fun path => inl (String.length path)) "album"
              ["album.*.bak"; "album.yml"; "album.json"] eq_refl) as [_ Hfirst].
  apply (Hfirst ["album.*.bak"] "album.yml" ["album.json"] eq_refl).
  - intros x [<- | []]. reflexivity.
  - reflexivity.
Defined.

(** * Properties of the audit log stream *)

Section StreamProperties.
Import Audit.
Context {Msg W : Type} (write : W -> Msg -> W * option error).

Lemma stream_app (pre post : list (AuditLogEntry Msg)) :
  forall writer,
    streamLogsToWriter write writer (pre ++ post) =
    match streamLogsToWriter write writer pre with
    | (writer', None) => streamLogsToWriter write writer' post
    | failed => failed
    end.
Proof.
  induction pre as [|e pre IH]; intros writer; [reflexivity|].
  cbn [app streamLogsToWriter].
  destruct (AccessLog e) as [[aLog|] [err|]]; try reflexivity.
  - destruct (write writer aLog) as [writer' [err|]]; [reflexivity|apply IH].
  - destruct (DecisionLog e) as [[dLog|] [err|]]; try reflexivity; [|apply IH].
    destruct (write writer dLog) as [writer' [err|]]; [reflexivity|apply IH].
Qed.

Lemma stream_received (entries : list (AuditLogEntry Msg)) :
  (forall w m, snd (write w m) = None) ->
  Forall received entries ->
  forall writer,
    streamLogsToWriter write writer entries =
    (fold_left (fun w m => fst (write w m)) (omap logOf entries) writer, None).
Proof.
  intros Hw Hall. induction Hall as [|e entries [Ha Hd] _ IH]; intros writer;
    [reflexivity|].
  cbn [streamLogsToWriter omap list_omap]. fold (omap (@logOf Msg) entries).
  unfold logOf at 1.
  destruct (AccessLog e) as [[aLog|] oe]; cbn [fst snd] in *; subst oe.
  - cbn [fold_left]. pose proof (Hw writer aLog) as Hwa.
    destruct (write writer aLog) as [writer' we]. cbn [fst snd] in *. subst we.
    apply IH.
  - specialize (Hd eq_refl).
    destruct (DecisionLog e) as [[dLog|] oe]; cbn [fst snd] in *; subst oe.
    + cbn [fold_left]. pose proof (Hw writer dLog) as Hwd.
      destruct (write writer dLog) as [writer' we]. cbn [fst snd] in *. subst we.
      apply IH.
    + apply IH.
Qed.

End StreamProperties.

(** X19. Streaming the entries of a channel in two batches is streaming the
    first batch and, when that returned no error, the second one on the
    writer as the first batch left it; an error of the first batch is the
    result and the second batch is not looked at. With a writer that
    accepts every log and entries that report no error, the logs written
    are, in order, the access log of each entry that has one and else its
    decision log, entries with neither being skipped, and the result is
    nil. When an entry reports an error for its access log that error is
    returned wrapped under ERR-153 and nothing of this entry or the later
    ones is written. *)
Theorem stream_logs_in_order {Msg W : Type}
    (write : W -> Msg -> W * option error)
    (writer : W) (pre post : list (Audit.AuditLogEntry Msg)) :
  Audit.streamLogsToWriter write writer (pre ++ post) =
    match Audit.streamLogsToWriter write writer pre with
    | (writer', None) => Audit.streamLogsToWriter write writer' post
    | failed => failed
    end
  /\
  ((forall w m, snd (write w m) = None) -> Forall Audit.received pre ->
   Audit.streamLogsToWriter write writer pre =
     (fold_left (fun w m => fst (write w m)) (omap Audit.logOf pre) writer, None)
   /\
   forall e aLog err,
     Audit.AccessLog e = (aLog, Some err) ->
     Audit.streamLogsToWriter write writer (pre ++ e :: post) =
     (fold_left (fun w m => fst (write w m)) (omap Audit.logOf pre) writer,
      Some (fmt_Errorf_w "[ERR-153] error while receiving access logs: %w" err))).
Proof.
  split; [apply stream_app|]. intros Hw Hall.
  pose proof (stream_received write pre Hw Hall writer) as Hpre.
  split; [exact Hpre|]. intros e aLog err He.
  rewrite stream_app, Hpre. cbn [Audit.streamLogsToWriter]. rewrite He.
  destruct aLog; reflexivity.
Qed.

Lemma stream_logs_in_order_witness :
  let entry (a d : option string) : Audit.AuditLogEntry string :=
    {| Audit.AccessLog := (a, None); Audit.DecisionLog := (d, None) |} in
  Audit.streamLogsToWriter (fun out m => (out ++ m ++ ";", None)) ""
    [entry (Some "a1") (Some "d1"); entry None None; entry None (Some "d3")]
  = ("a1;d3;", None).
Proof.
  intros entry.
  destruct (@stream_logs_in_order string string
              (fun out m => (out ++ m ++ ";", None)) ""
              [entry (Some "a1") (Some "d1"); entry None None; entry None (Some "d3")] [])
    as [_ Hgood].
  destruct Hgood as [Hrun _].
  - reflexivity.
  - repeat constructor; discriminate.
  - exact Hrun.
Defined.

Lemma fold_left_append_lines {Msg : Type} (line : Msg -> string) (msgs : list Msg) :
  forall out : string,
    fold_left (fun w m => w ++ line m) msgs out
    = out ++ String.concat "" (map line msgs).
Proof.
  induction msgs as [|m msgs IH]; intros out; cbn [fold_left map].
  - cbn. symmetry. apply append_nil_r.
  - rewrite IH, append_assoc. f_equal. destruct msgs; [|reflexivity].
    cbn. rewrite append_nil_r. reflexivity.
Qed.

Lemma fold_left_same {A B : Type} (f g : A -> B -> A) (l : list B) :
  (forall a b, f a b = g a b) -> forall a, fold_left f l a = fold_left g l a.
Proof.
  intros Hfg. induction l as [|b l IH]; intros a; [reflexivity|].
  cbn [fold_left]. rewrite Hfg. apply IH.
Qed.

(** X20. Streamed through the raw writer into a sink that appends what it
    is given, entries that report no error and whose logs all marshal
    produce newline-delimited output: the bytes marshalled for each log,
    each followed by one newline, in the order of the entries, after what
    the sink held before; and the result is nil. *)
Theorem raw_stream_is_newline_delimited {Msg : Type}
    (Marshal : Msg -> string + error) (json : Msg -> string)
    (Write : string -> string -> string * option error)
    (entries : list (Audit.AuditLogEntry Msg)) (out : string) :
  (forall o bytes, Write o bytes = (o ++ bytes, None)) ->
  (forall m, Marshal m = inl (json m)) ->
  Forall Audit.received entries ->
  Audit.streamLogsToWriter (Audit.raw_write Marshal Write) out entries =
  (out ++ String.concat "" (map (fun m => json m ++ Audit.newline)
                              (omap Audit.logOf entries)),
   None).
Proof.
  intros Hw Hm Hall.
  assert (Hraw : forall o m,
            Audit.raw_write Marshal Write o m = (o ++ (json m ++ Audit.newline), None)).
  { intros o m. unfold Audit.raw_write. rewrite Hm, !Hw, append_assoc. reflexivity. }
  rewrite (stream_received (Audit.raw_write Marshal Write) entries)
    by (intros; rewrite ?Hraw; auto).
  f_equal. rewrite <- fold_left_append_lines.
  apply fold_left_same. intros o m. rewrite Hraw. reflexivity.
Qed.

Lemma raw_stream_is_newline_delimited_witness :
  let entry (a d : option string) : Audit.AuditLogEntry string :=
    {| Audit.AccessLog := (a, None); Audit.DecisionLog := (d, None) |} in
  Audit.streamLogsToWriter
    (Audit.raw_write (fun m => inl ("{" ++ m ++ "}")) (fun o bytes => (o ++ bytes, None)))
    "" [entry (Some "a1") (Some "d1"); entry None (Some "d2")]
  = ("{a1}" ++ Audit.newline ++ "{d2}" ++ Audit.newline, None).
Proof.
  intros entry.
  apply (@raw_stream_is_newline_delimited string
           (fun m => inl ("{" ++ m ++ "}")) (fun m => "{" ++ m ++ "}")
           (fun o bytes => (o ++ bytes, None))
           [entry (Some "a1") (Some "d1"); entry None (Some "d2")] "").
  - reflexivity.
  - reflexivity.
  - repeat constructor; discriminate.
Defined.
